(** * cpy: batch file copy — destination paths, rename, progress, ordering

    A shallow embedding of [index.js] (the copy orchestrator of cpy) and of
    the parts of Node's [path] module it calls, followed by the properties
    the specification states about them.

    Conventions.
    - JavaScript strings are [string]; [+:+] is string concatenation.
    - The platform is POSIX: [path.sep] is ["/"], and the functions of
      Node's [path] module are those of [path.posix].
    - Byte counts are integers ([Z]).  The [percent] field of a copy tick is
      a finite IEEE double; every finite double is a rational number and two
      finite doubles are [===] exactly when they are equal as rationals, so
      ticks carry a [Q] compared with [Qeq_bool].
    - Collaborators that are not part of [index.js] (the glob engine, the
      byte-copy primitive, the working directory of the process) are the
      fields of a [Host] record passed explicitly. *)

From Stdlib Require Import QArith Ascii String.
From stdpp Require Import gmap strings list.
From Stdlib Require Import Sorted.
Close Scope Q_scope.

(* ===================================================================== *)
(** * Strings *)
(* ===================================================================== *)

Module Str.

Definition is_sep (c : ascii) : bool := Ascii.eqb c "/".
Definition is_dot (c : ascii) : bool := Ascii.eqb c ".".

(** [s.split('/')]: the pieces of [s] between separators; never empty. *)
Fixpoint split (s : string) : list string :=
  match s with
  | EmptyString => [EmptyString]
  | String c s' =>
      if is_sep c then EmptyString :: split s'
      else match split s' with
           | x :: xs => String c x :: xs
           | [] => [String c EmptyString]
           end
  end.

(** [arr.join('/')]. *)
Definition unsplit (l : list string) : string := String.concat "/" l.

(** [s.replace(/\\/g, '/')]. *)
Fixpoint backslashes_to_slashes (s : string) : string :=
  match s with
  | EmptyString => EmptyString
  | String c s' =>
      String (if Ascii.eqb c "\" then "/"%char else c)
             (backslashes_to_slashes s')
  end.

(** Does [s] contain a separator? *)
Fixpoint has_sep (s : string) : bool :=
  match s with
  | EmptyString => false
  | String c s' => is_sep c || has_sep s'
  end.

(** Does [s] contain a character that is not a separator? *)
Fixpoint has_nonsep (s : string) : bool :=
  match s with
  | EmptyString => false
  | String c s' => negb (is_sep c) || has_nonsep s'
  end.

(** Is the last character of [s] a separator? *)
Fixpoint ends_with_sep (s : string) : bool :=
  match s with
  | EmptyString => false
  | String c EmptyString => is_sep c
  | String _ s' => ends_with_sep s'
  end.

(** [strip_suffix suf s] is [Some pre] when [s = pre +:+ suf]. *)
Fixpoint strip_suffix (suf s : string) : option string :=
  if String.eqb s suf then Some EmptyString
  else match s with
       | EmptyString => None
       | String c s' => String c <$> strip_suffix suf s'
       end.

End Str.

(* ===================================================================== *)
(** * Node's [path] module (POSIX flavour) *)
(* ===================================================================== *)

Module Path.
Import Str.

(** [path.isAbsolute(p)]: non-empty and starting with a separator. *)
Definition isAbsolute (p : string) : bool :=
  match p with
  | String c _ => is_sep c
  | EmptyString => false
  end.

(** One iteration of the segment loop of Node's [normalizeString]: [stk]
    is the result so far, innermost directory first.  Empty segments and
    ["."] are dropped; [".."] removes the innermost directory when there
    is one that is not itself [".."], and is otherwise kept only when the
    path may climb above its root. *)
Definition push_segment (allowAboveRoot : bool)
    (stk : list string) (seg : string) : list string :=
  if String.eqb seg "" || String.eqb seg "." then stk
  else if String.eqb seg ".." then
    match stk with
    | top :: rest =>
        if String.eqb top ".."
        then (if allowAboveRoot then ".." :: stk else stk)
        else rest
    | [] => if allowAboveRoot then [".."] else []
    end
  else seg :: stk.

(** The directory stack of a path, outermost first. *)
Definition segments (allowAboveRoot : bool) (p : string) : list string :=
  rev (foldl (push_segment allowAboveRoot) [] (split p)).

(** [normalizeString(path, allowAboveRoot, '/')]. *)
Definition normalizeString (p : string) (allowAboveRoot : bool) : string :=
  unsplit (segments allowAboveRoot p).

(** [path.normalize(p)]. *)
Definition normalize (p : string) : string :=
  if String.eqb p "" then "."
  else
    let isAbs := isAbsolute p in
    let trailingSeparator := ends_with_sep p in
    let q := normalizeString p (negb isAbs) in
    if String.eqb q "" then
      if isAbs then "/" else if trailingSeparator then "./" else "."
    else
      let q := if trailingSeparator then q +:+ "/" else q in
      if isAbs then "/" +:+ q else q.

(** [path.join(...args)]: the non-empty arguments glued with separators,
    then normalized. *)
Definition join (args : list string) : string :=
  match filter (λ a, a ≠ "") args with
  | [] => "."
  | parts => normalize (unsplit parts)
  end.

(** The directory stack of [path.resolve(p)] for a process whose working
    directory is [cwd]: the working directory is prepended unless [p] is
    absolute. *)
Definition resolve_segments (cwd p : string) : list string :=
  if String.eqb p "" then segments (negb (isAbsolute cwd)) (cwd +:+ "/")
  else if isAbsolute p then segments false (p +:+ "/")
  else if String.eqb cwd "" then segments true (p +:+ "/")
  else segments (negb (isAbsolute cwd)) (cwd +:+ "/" +:+ p +:+ "/").

(** [path.resolve(p)] (one argument). *)
Definition resolve (cwd p : string) : string :=
  let segs := unsplit (resolve_segments cwd p) in
  if isAbsolute p || isAbsolute cwd then "/" +:+ segs
  else if String.eqb segs "" then "." else segs.

(** Removes the longest common prefix of two directory stacks. *)
Fixpoint strip_common (from to : list string) : list string * list string :=
  match from, to with
  | a :: from', b :: to' =>
      if String.eqb a b then strip_common from' to' else (from, to)
  | _, _ => (from, to)
  end.

(** [path.relative(from, to)]: both paths are resolved; the result climbs
    out of what is left of [from] after the common directories and then
    descends along what is left of [to]. *)
Definition relative (cwd from to : string) : string :=
  if String.eqb from to then ""
  else
    let '(up, down) :=
      strip_common (resolve_segments cwd from) (resolve_segments cwd to) in
    unsplit (((λ _, "..") <$> up) ++ down).

(** The last non-empty piece of a path (trailing separators ignored). *)
Definition last_component (p : string) : string :=
  default "" (last (filter (λ s, s ≠ "") (split p))).

(** [path.basename(p)]. *)
Definition basename (p : string) : string := last_component p.

(** The part of [s] from its last dot on, if it has a dot. *)
Fixpoint from_last_dot (s : string) : option string :=
  match s with
  | EmptyString => None
  | String c s' =>
      match from_last_dot s' with
      | Some e => Some e
      | None => if is_dot c then Some s else None
      end
  end.

(** [path.extname(p)]: from the last dot of the last component on; empty
    when there is no dot, when the only dot of the component is its first
    character, or when the component is [".."]. *)
Definition extname (p : string) : string :=
  match last_component p with
  | EmptyString => ""
  | String _ rest as comp =>
      if String.eqb comp ".." then ""
      else default "" (from_last_dot rest)
  end.

(** [path.basename(p, suffix)]: the suffix is removed from the last
    component unless that would leave nothing. *)
Definition basename_without (p suffix : string) : string :=
  let comp := last_component p in
  if String.eqb suffix "" then comp
  else if String.length p <? String.length suffix then comp
  else if String.eqb suffix p then ""
  else match strip_suffix suffix comp with
       | Some "" | None => comp
       | Some stem => stem
       end.

(** For the characters of a path after its first one: the text before the
    last separator that is followed by a non-separator character. *)
Fixpoint dir_end (s : string) : option string :=
  match s with
  | EmptyString => None
  | String c s' =>
      match dir_end s' with
      | Some pre => Some (String c pre)
      | None => if is_sep c && has_nonsep s' then Some "" else None
      end
  end.

(** [path.dirname(p)]. *)
Definition dirname (p : string) : string :=
  match p with
  | EmptyString => "."
  | String c s =>
      match dir_end s with
      | None => if is_sep c then "/" else "."
      | Some pre =>
          if is_sep c && String.eqb pre "" then "//" else String c pre
      end
  end.

End Path.

(* ===================================================================== *)
(** * index.js: data *)
(* ===================================================================== *)

Import Str Path.

(** Modelled from the spec: the class [GlobPattern] of [./glob-pattern] is
    not among the sources.  [index.js] reads four things from an instance:
    the pattern text it was built from ([originalPath]), the directory that
    anchors structure-preserving copies ([normalizedPath], the spec's
    [baseDirectory]), whether the pattern is wildcarded ([hasMagic()]) and
    the outcome of matching ([getMatches()]: the absolute paths found, or
    the message of the error the glob engine raised). *)
Record GlobPattern := {
  originalPath : string;
  normalizedPath : string;
  hasMagic : bool;
  getMatches : string + list string
}.

(** [class Entry]; the constructor rewrites ["/"] to [path.sep]. *)
Record Entry := {
  path : string;
  relativePath : string;
  pattern : GlobPattern
}.

Definition newEntry (path relativePath : string) (pattern : GlobPattern)
    : Entry :=
  {| path := unsplit (split path);
     relativePath := unsplit (split relativePath);
     pattern := pattern |}.

Definition name (e : Entry) : string := basename (path e).
Definition nameWithoutExtension (e : Entry) : string :=
  basename_without (path e) (extname (path e)).
Definition extension (e : Entry) : string :=
  match extname (path e) with
  | String _ rest => rest
  | EmptyString => ""
  end.

(** The [rename] option by its JavaScript type: anything that is neither a
    string nor a function, a string, a function. *)
Inductive Rename :=
| NoRename
| StaticName (name : string)
| Computed (f : string → string).

(** [Options] after the defaults have been merged in. *)
Record Options := {
  ignoreJunk : bool;
  flat : bool;
  cwd : string;
  overwrite : option bool;
  rename : Rename;
  filter : option (Entry → bool)
}.

(** The options object as the caller passes it: every field may be absent. *)
Record UserOptions := {
  user_concurrency : option nat;
  user_ignoreJunk : option bool;
  user_flat : option bool;
  user_cwd : option string;
  user_overwrite : option bool;
  user_rename : Rename;
  user_filter : option (Entry → bool)
}.

(** [source]: one pattern, an array of patterns, or nothing. *)
Inductive Source :=
| NoSource
| OneSource (pattern : string)
| ManySources (patterns : list string).

Definition arrify (s : Source) : list string :=
  match s with
  | NoSource => []
  | OneSource p => [p]
  | ManySources ps => ps
  end.

Module CopyStatus.
Record t := mk { written : Z; percent : Q }.
End CopyStatus.

(** The progress event of the byte-copy primitive. *)
Module ProgressData.
Record t := mk { src : string; written : Z; percent : Q }.
End ProgressData.

(** What one call of the byte-copy primitive does: the ticks it emits, then
    success, or failure with a message. *)
Record CopyRun := {
  ticks : list ProgressData.t;
  failure : option string
}.

(** The collaborators of [index.js]. *)
Record Host := {
  process_cwd : string;                       (* process.cwd() *)
  os_cpus : nat;                              (* os.cpus().length *)
  glob_hasMagic : string → bool;              (* glob.hasMagic *)
  newGlobPattern : string → string → Options → GlobPattern;
  cpFile : string → string → Options → CopyRun
}.

(** A JavaScript number that results from a division of two counters. *)
Inductive Number :=
| Finite (q : Q)
| Infinity
| NaN.

Definition divide (a b : nat) : Number :=
  match b, a with
  | O, O => NaN
  | O, S _ => Infinity
  | S _, _ => Finite (Z.of_nat a # Pos.of_nat b)
  end.

Definition is_one (x : Number) : bool :=
  match x with
  | Finite q => Qeq_bool q 1
  | _ => false
  end.

(** The aggregate progress event. *)
Module Progress.
Record t := mk {
  totalFiles : nat;
  percent : Number;
  completedFiles : nat;
  completedSize : Z
}.
End Progress.

Inductive CpyError :=
| RequiredError
| GlobError (originalPath message : string)
| NotFoundError (originalPath : string)
| CopyError (relativePath to message : string).

Definition message (e : CpyError) : string :=
  match e with
  | RequiredError => "`source` and `destination` required"
  | GlobError p m => "Cannot glob `" +:+ p +:+ "`: " +:+ m
  | NotFoundError p => "Cannot copy `" +:+ p +:+ "`: the file doesn't exist"
  | CopyError r to m =>
      "Cannot copy from `" +:+ r +:+ "` to `" +:+ to +:+ "`: " +:+ m
  end.

(* ===================================================================== *)
(** * index.js: destination paths and rename *)
(* ===================================================================== *)

Definition defaultConcurrency (h : Host) : nat :=
  (match os_cpus h with O => 1 | n => n end) * 2.

Definition defaultOptions (h : Host) : Options :=
  {| ignoreJunk := true; flat := false; cwd := process_cwd h;
     overwrite := None; rename := NoRename; filter := None |}.

(** [{...defaultOptions, ...options}]. *)
Definition mergeOptions (h : Host) (u : UserOptions) : Options :=
  {| ignoreJunk := default (ignoreJunk (defaultOptions h)) (user_ignoreJunk u);
     flat := default (flat (defaultOptions h)) (user_flat u);
     cwd := default (cwd (defaultOptions h)) (user_cwd u);
     overwrite := user_overwrite u;
     rename := user_rename u;
     filter := user_filter u |}.

Definition preprocessDestinationPath (h : Host)
    (entry : Entry) (destination : string) (options : Options) : string :=
  if hasMagic (pattern entry) then
    if flat options then
      if isAbsolute destination then join [destination; name entry]
      else join [cwd options; destination; name entry]
    else
      join [destination;
            relative (process_cwd h)
                     (normalizedPath (pattern entry)) (path entry)]
  else if isAbsolute destination then join [destination; name entry]
  else join [cwd options; destination;
             relative (process_cwd h) (cwd options) (path entry)].

Definition renameFile (path : string) (rename : Rename) : string :=
  let filename := basename_without path (extname path) in
  let ext := extname path in
  let dir := dirname path in
  match rename with
  | StaticName name => join [dir; name]
  | Computed f => join [dir; f filename +:+ ext]
  | NoRename => path
  end.

(* ===================================================================== *)
(** * index.js: progress aggregation *)
(* ===================================================================== *)

(** The variables the progress handler closes over: the [copyStatus] map
    and the two counters. *)
Record Aggregator := {
  copyStatus : gmap string CopyStatus.t;
  completedFiles : nat;
  completedSize : Z
}.

Definition newAggregator : Aggregator :=
  {| copyStatus := ∅; completedFiles := 0; completedSize := 0 |}.

(** JavaScript numbers are IEEE 754 doubles.  A byte count is an integer,
    and the sum or the difference of two integer-valued doubles is the
    exact result rounded to the nearest double, ties going to the even
    significand, which is an integer again: integers of up to 53 bits are
    doubles, larger ones lose their low bits.  (Overflow to infinity,
    from [2^1024] on, is out of reach of byte counts and is left out.) *)
Definition roundToDouble (z : Z) : Z :=
  let magnitude := Z.abs z in
  let excess := (Z.log2 magnitude - 52)%Z in
  if (excess <=? 0)%Z then z
  else
    let kept := Z.shiftr magnitude excess in
    let lost := Z.land magnitude (Z.ones excess) in
    let half := Z.shiftl 1 (excess - 1) in
    let rounded :=
      if (half <? lost)%Z || ((lost =? half)%Z && Z.odd kept)
      then (kept + 1)%Z else kept in
    (Z.sgn z * Z.shiftl rounded excess)%Z.

(** [Number.MAX_SAFE_INTEGER]. *)
Definition maxSafeInteger : Z := 2 ^ 53 - 1.

(** The status the handler assumes for a path that is not in the map. *)
Definition unseen : CopyStatus.t := CopyStatus.mk 0 0.

Definition statusOf (a : Aggregator) (src : string) : CopyStatus.t :=
  default unseen (copyStatus a !! src).

(** Does the event differ from the recorded status? *)
Definition changed (fileStatus : CopyStatus.t) (event : ProgressData.t)
    : bool :=
  negb (CopyStatus.written fileStatus =? ProgressData.written event)%Z
  || negb (Qeq_bool (CopyStatus.percent fileStatus)
                    (ProgressData.percent event)).

(** [fileProgressHandler(event)], with [entries.length] as [total]: the new
    values of the closed-over variables and the event emitted, if any. *)
Definition fileProgressHandler (total : nat) (a : Aggregator)
    (event : ProgressData.t) : Aggregator * option Progress.t :=
  let fileStatus := statusOf a (ProgressData.src event) in
  if changed fileStatus event then
    let completedSize :=
      roundToDouble (completedSize a - CopyStatus.written fileStatus) in
    let completedSize :=
      roundToDouble (completedSize + ProgressData.written event) in
    let completedFiles :=
      if Qeq_bool (ProgressData.percent event) 1
         && negb (Qeq_bool (CopyStatus.percent fileStatus) 1)
      then S (completedFiles a) else completedFiles a in
    ({| copyStatus :=
          <[ProgressData.src event :=
              CopyStatus.mk (ProgressData.written event)
                            (ProgressData.percent event)]> (copyStatus a);
        completedFiles := completedFiles;
        completedSize := completedSize |},
     Some (Progress.mk total (divide completedFiles total)
                       completedFiles completedSize))
  else (a, None).

(** Feeding a sequence of ticks to the handler, one after the other: the
    final variables and the events emitted, oldest first. *)
Fixpoint ingest (total : nat) (a : Aggregator) (events : list ProgressData.t)
    : Aggregator * list Progress.t :=
  match events with
  | [] => (a, [])
  | event :: rest =>
      let '(a', out) := fileProgressHandler total a event in
      let '(a'', outs) := ingest total a' rest in
      (a'', option_list out ++ outs)
  end.

(** The event emitted when there is nothing to copy. *)
Definition nothingToCopy : Progress.t := Progress.mk 0 (Finite 1) 0 0.

(* ===================================================================== *)
(** * index.js: the operation *)
(* ===================================================================== *)

(** [arrify(source).map(str => str.replace(/\\/g, '/'))]. *)
Definition normalizePatterns (source : Source) : list string :=
  backslashes_to_slashes <$> arrify source.

(** The accumulator of the [reduce] that builds the pattern objects. *)
Record PatternAcc := {
  rootInstance : option GlobPattern;
  instances : list GlobPattern
}.

(** [patterns.reduce(...).instances]; the accumulator has no [instance]
    property, so every pattern object is built with [options]. *)
Definition buildPatterns (h : Host) (destination : string)
    (options : Options) (patterns : list string) : list GlobPattern :=
  instances
    (foldl (λ obj pattern,
              let instance := newGlobPattern h pattern destination options in
              {| rootInstance := Some (default instance (rootInstance obj));
                 instances := instances obj ++ [instance] |})
           {| rootInstance := None; instances := [] |}
           patterns).

(** The [for (const pattern of patterns)] loop, started with the entries
    collected so far. *)
Fixpoint collectEntries (h : Host) (options : Options)
    (patterns : list GlobPattern) (entries : list Entry)
    : CpyError + list Entry :=
  match patterns with
  | [] => inr entries
  | pattern :: rest =>
      match getMatches pattern with
      | inl msg => inl (GlobError (originalPath pattern) msg)
      | inr matches =>
          if (length matches =? 0)
             && negb (glob_hasMagic h (originalPath pattern))
          then inl (NotFoundError (originalPath pattern))
          else
            collectEntries h options rest
              (entries ++
               ((λ sourcePath,
                   newEntry sourcePath
                            (relative (process_cwd h) (cwd options) sourcePath)
                            pattern) <$> matches))
      end
  end.

(** Everything [cpy] does before it hands the entries to [pMap]: argument
    check, pattern objects, matching, filtering. *)
Definition prepare (h : Host) (source : Source) (destination : string)
    (options : Options) : CpyError + list Entry :=
  let patterns := normalizePatterns source in
  if (length patterns =? 0) || String.eqb destination "" then
    inl RequiredError
  else
    match collectEntries h options
            (buildPatterns h destination options patterns) [] with
    | inl e => inl e
    | inr entries =>
        inr (match filter options with
             | Some keep => List.filter keep entries
             | None => entries
             end)
    end.

(** The destination the mapper computes for an entry. *)
Definition destinationOf (h : Host) (destination : string)
    (options : Options) (entry : Entry) : string :=
  renameFile (preprocessDestinationPath h entry destination options)
             (rename options).

(** Assignment to an index of a JavaScript array: slots between the old
    end and the index stay unset. *)
Definition array_set {A} (i : nat) (v : A) (arr : list (option A))
    : list (option A) :=
  if decide (i < length arr) then <[i := Some v]> arr
  else arr ++ replicate (i - length arr) None ++ [Some v].

(** The promise [cpy] returns.  Besides the errors [cpy] makes itself
    there is the [TypeError] with which [pMap] rejects a [concurrency]
    below 1. *)
Inductive Promise :=
| Pending
| Fulfilled (value : list (option string))
| RejectedWith (e : CpyError)
| RejectedWithTypeError.

(** The state of the copying phase: the promise [pMap] returned, how many
    entries have been handed to the mapper, the copies in flight (entry
    index and ticks still to come), [pMap]'s result array, the aggregator
    and the events emitted so far. *)
Record State := {
  promise : Promise;
  started : nat;
  inflight : list (nat * list ProgressData.t);
  result : list (option string);
  aggregator : Aggregator;
  emitted : list Progress.t
}.

(** What the copying phase works on. *)
Record Job := {
  job_entries : list Entry;
  job_destination : string;
  job_options : Options;
  job_concurrency : nat
}.

(** The state in which [pMap] is entered: the event for an empty entry
    set has been emitted (lines 229-236), and [pMap] has checked its
    [concurrency] argument before it starts any mapper. *)
Definition initial (j : Job) : State :=
  {| promise :=
       if job_concurrency j =? 0 then RejectedWithTypeError else Pending;
     started := 0; inflight := []; result := [];
     aggregator := newAggregator;
     emitted := if length (job_entries j) =? 0 then [nothingToCopy] else [] |}.

(** One event of the copying phase.  The mapper is started on the next
    entry while fewer than [concurrency] copies are in flight; a copy in
    flight delivers its next tick to the progress handler; a copy whose
    ticks are exhausted settles, and its destination is stored at the index
    of its entry or the whole operation is rejected; once every entry has
    been mapped the promise is fulfilled with the result array.  Which of
    the enabled events happens next is not determined. *)
Inductive step (h : Host) (j : Job) : State → State → Prop :=
| step_start s entry :
    promise s = Pending →
    length (inflight s) < job_concurrency j →
    job_entries j !! started s = Some entry →
    step h j s
      {| promise := promise s; started := S (started s);
         inflight :=
           inflight s ++
           [(started s,
             ticks (cpFile h (path entry)
                      (destinationOf h (job_destination j) (job_options j) entry)
                      (job_options j)))];
         result := result s; aggregator := aggregator s;
         emitted := emitted s |}
| step_tick s before i event rest after :
    inflight s = before ++ (i, event :: rest) :: after →
    step h j s
      {| promise := promise s; started := started s;
         inflight := before ++ (i, rest) :: after;
         result := result s;
         aggregator :=
           (fileProgressHandler (length (job_entries j)) (aggregator s) event).1;
         emitted :=
           emitted s ++
           option_list
             (fileProgressHandler (length (job_entries j)) (aggregator s) event).2 |}
| step_copied s before i after entry :
    inflight s = before ++ (i, []) :: after →
    job_entries j !! i = Some entry →
    failure (cpFile h (path entry)
               (destinationOf h (job_destination j) (job_options j) entry)
               (job_options j)) = None →
    step h j s
      {| promise := promise s; started := started s;
         inflight := before ++ after;
         result :=
           match promise s with
           | Pending =>
               array_set i
                 (destinationOf h (job_destination j) (job_options j) entry)
                 (result s)
           | _ => result s
           end;
         aggregator := aggregator s; emitted := emitted s |}
| step_failed s before i after entry msg :
    inflight s = before ++ (i, []) :: after →
    job_entries j !! i = Some entry →
    failure (cpFile h (path entry)
               (destinationOf h (job_destination j) (job_options j) entry)
               (job_options j)) = Some msg →
    step h j s
      {| promise :=
           match promise s with
           | Pending =>
               RejectedWith
                 (CopyError (relativePath entry)
                    (destinationOf h (job_destination j) (job_options j) entry)
                    msg)
           | p => p
           end;
         started := started s; inflight := before ++ after;
         result := result s; aggregator := aggregator s;
         emitted := emitted s |}
| step_fulfil s :
    promise s = Pending →
    started s = length (job_entries j) →
    inflight s = [] →
    step h j s
      {| promise := Fulfilled (result s); started := started s;
         inflight := []; result := result s; aggregator := aggregator s;
         emitted := emitted s |}.

(** [cpy(source, destination, options)]: how the returned promise may
    settle and which progress events are emitted up to that point. *)
Inductive cpy (h : Host) (source : Source) (destination : string)
    (user : UserOptions) : Promise → list Progress.t → Prop :=
| cpy_throws e :
    prepare h source destination (mergeOptions h user) = inl e →
    cpy h source destination user (RejectedWith e) []
| cpy_copies entries s :
    prepare h source destination (mergeOptions h user) = inr entries →
    rtc (step h {| job_entries := entries; job_destination := destination;
                   job_options := mergeOptions h user;
                   job_concurrency :=
                     default (defaultConcurrency h) (user_concurrency user) |})
        (initial {| job_entries := entries; job_destination := destination;
                    job_options := mergeOptions h user;
                    job_concurrency :=
                      default (defaultConcurrency h) (user_concurrency user) |})
        s →
    cpy h source destination user (promise s) (emitted s).

(* ===================================================================== *)
(** * Notions used to state and prove the properties *)
(* ===================================================================== *)

(** A single file name: not empty, no separator, neither ["."] nor [".."]. *)
Definition is_filename (s : string) : bool :=
  negb (String.eqb s "") && negb (String.eqb s ".")
  && negb (String.eqb s "..") && negb (has_sep s).

(** The text [path.normalize] produces for a directory stack [st]
    (outermost first) of an absolute or relative path, with or without a
    trailing separator. *)
Definition render (abs : bool) (st : list string) (trailing : bool) : string :=
  match st with
  | [] => if abs then "/" else if trailing then "./" else "."
  | _ =>
      let q := unsplit st in
      let q := if trailing then q +:+ "/" else q in
      if abs then "/" +:+ q else q
  end.

(** Directory stacks as [push_segment] builds them (innermost first): file
    names on top of a run of [".."], the run being empty unless the path
    may climb above its root. *)
Inductive stack_ok (allowAboveRoot : bool) : list string → Prop :=
| stack_ups k :
    allowAboveRoot = true ∨ k = 0 →
    stack_ok allowAboveRoot (replicate k "..")
| stack_push s stk :
    is_filename s = true →
    stack_ok allowAboveRoot stk →
    stack_ok allowAboveRoot (s :: stk).

(** A piece that [push_segment] keeps on a directory stack. *)
Definition solid (s : string) : Prop :=
  s ≠ "" ∧ s ≠ "." ∧ has_sep s = false.

(** The optional trailing separator of a rendered path. *)
Definition trail (tr : bool) : string := if tr then "/" else "".

(** [resolve_segments] pushes the pieces of a path onto the stack of the
    working directory, or onto the empty stack when the path is absolute. *)
Definition rs_allow (cwd p : string) : bool :=
  if isAbsolute p then false else negb (isAbsolute cwd).
Definition rs_base (cwd p : string) : list string :=
  if isAbsolute p then [] else rev (segments (negb (isAbsolute cwd)) cwd).

(** [p] lies in the directory [base] or below it. *)
Definition lies_under (cwd base p : string) : Prop :=
  resolve_segments cwd base `prefix_of` resolve_segments cwd p.

(** The file name [renameFile] puts in place of the old one, if any. *)
Definition newName (path : string) (rename : Rename) : option string :=
  match rename with
  | NoRename => None
  | StaticName name => Some name
  | Computed f => Some (f (basename_without path (extname path)) +:+ extname path)
  end.

(** Is that name a single file name? *)
Definition newNameIsFilename (path : string) (rename : Rename) : bool :=
  match newName path rename with
  | Some n => is_filename n
  | None => true
  end.

(** ** Ticks and the events they cause *)

(** A [percent] that reports a finished file. *)
Definition isDone (q : Q) : bool := Qeq_bool q 1.

(** [t2], a later tick, is consistent with [t1]: if both are for the same
    file, the byte count has not gone down and a finished file is still
    finished. *)
Definition follows (t1 t2 : ProgressData.t) : Prop :=
  ProgressData.src t1 = ProgressData.src t2 →
  (ProgressData.written t1 ≤ ProgressData.written t2)%Z
  ∧ (isDone (ProgressData.percent t1) = true →
     isDone (ProgressData.percent t2) = true).

(** Ticks as a byte-copy primitive delivers them, interleaved in any
    order: byte counts are not negative and every tick is consistent with
    all earlier ticks of its file. *)
Fixpoint wellBehaved (ticks : list ProgressData.t) : Prop :=
  match ticks with
  | [] => True
  | t :: rest =>
      (0 ≤ ProgressData.written t)%Z
      ∧ Forall (follows t) rest
      ∧ wellBehaved rest
  end.

(** Every tick is for one of the paths and every path gets a tick that
    reports it finished. *)
Definition finishes (paths : list string) (ticks : list ProgressData.t) : Prop :=
  Forall (λ t, ProgressData.src t ∈ paths) ticks
  ∧ Forall (λ p, Exists (λ t, ProgressData.src t = p
                              ∧ isDone (ProgressData.percent t) = true) ticks)
           paths.

Global Instance follows_dec t1 t2 : Decision (follows t1 t2).
Proof. unfold follows. apply _. Defined.

Global Instance wellBehaved_dec ticks : Decision (wellBehaved ticks).
Proof. induction ticks; simpl; apply _. Defined.

Global Instance finishes_dec paths ticks : Decision (finishes paths ticks).
Proof. unfold finishes. apply _. Defined.

(** All events of an operation on [entries] whose copies deliver [ticks]:
    the one for an empty entry set, then those of the handler. *)
Definition emittedFor (entries : list Entry) (ticks : list ProgressData.t)
    : list Progress.t :=
  (if length entries =? 0 then [nothingToCopy] else [])
  ++ (ingest (length entries) newAggregator ticks).2.

(** The recorded status carries the numbers of the tick. *)
Definition agrees (st : CopyStatus.t) (t : ProgressData.t) : Prop :=
  CopyStatus.written st = ProgressData.written t
  ∧ Qeq_bool (CopyStatus.percent st) (ProgressData.percent t) = true.

(** How many of the paths are recorded as finished. *)
Definition doneCount (a : Aggregator) (paths : list string) : nat :=
  length (List.filter (λ p, isDone (CopyStatus.percent (statusOf a p))) paths).

(** The aggregator and the events after a sequence of ticks, starting
    from the fresh aggregator. *)
Definition aggAfter (total : nat) (l : list ProgressData.t) : Aggregator :=
  (ingest total newAggregator l).1.
Definition outAfter (total : nat) (l : list ProgressData.t) : list Progress.t :=
  (ingest total newAggregator l).2.

(** A tick of the byte-copy primitive. *)
Definition tick (src : string) (written : Z) (percent : Q) : ProgressData.t :=
  ProgressData.mk src written percent.

(** ** The entries and the copying phase *)

(** The entries a pattern contributes: one per match, in match order. *)
Definition entriesOfPattern (h : Host) (options : Options)
    (pattern : GlobPattern) : list Entry :=
  match getMatches pattern with
  | inr matches =>
      (λ sourcePath,
         newEntry sourcePath
                  (relative (process_cwd h) (cwd options) sourcePath)
                  pattern) <$> matches
  | inl _ => []
  end.

(** The entries in pattern order, then match order. *)
Definition entriesInOrder (h : Host) (options : Options)
    (patterns : list GlobPattern) : list Entry :=
  patterns ≫= entriesOfPattern h options.

(** The entries that pass the [filter] option. *)
Definition retained (options : Options) (entries : list Entry) : list Entry :=
  match filter options with
  | Some keep => List.filter keep entries
  | None => entries
  end.

(** The job [cpy] hands to the copying phase. *)
Definition jobOf (h : Host) (destination : string) (user : UserOptions)
    (entries : list Entry) : Job :=
  {| job_entries := entries; job_destination := destination;
     job_options := mergeOptions h user;
     job_concurrency := default (defaultConcurrency h) (user_concurrency user) |}.


(** The destinations of the entries of a job, in entry order. *)
Definition destinations (h : Host) (j : Job) : list string :=
  destinationOf h (job_destination j) (job_options j) <$> job_entries j.

(** What holds in every state of the copying phase: the in-flight copies
    are distinct entries that have been started; while the promise is
    pending the result array does not reach beyond the started entries and
    holds, at the index of every entry that was started and is no longer in
    flight, the destination of that entry; a fulfilled promise carries all
    destinations in entry order. *)
Record invariant (h : Host) (j : Job) (s : State) : Prop := {
  inv_started : started s ≤ length (job_entries j);
  inv_nodup : NoDup (inflight s).*1;
  inv_inflight : ∀ i, i ∈ (inflight s).*1 → i < started s;
  inv_length : promise s = Pending → length (result s) ≤ started s;
  inv_result :
    ∀ i d, promise s = Pending → destinations h j !! i = Some d →
           i < started s → i ∉ (inflight s).*1 →
           result s !! i = Some (Some d);
  inv_fulfilled :
    ∀ v, promise s = Fulfilled v → v = Some <$> destinations h j
}.

(** A state of the copying phase with a pending promise. *)
Definition between (k : nat) (fl : list (nat * list ProgressData.t))
    (res : list (option string)) (a : Aggregator) (ev : list Progress.t) : State :=
  {| promise := Pending; started := k; inflight := fl; result := res;
     aggregator := a; emitted := ev |}.

(** ** A small world to evaluate the definitions in *)

(** The process works in [/w], which holds [a.txt], [sub/b.txt],
    [dir/x.txt] and [dir/y/z.txt]; a pattern is wildcarded when it contains
    a star; every copy reports two ticks and succeeds. *)
Fixpoint has_star (s : string) : bool :=
  match s with
  | EmptyString => false
  | String c s' => Ascii.eqb c "*" || has_star s'
  end.

Definition demoPattern (text : string) : GlobPattern :=
  if String.eqb text "a.txt" then
    {| originalPath := text; normalizedPath := "/w"; hasMagic := false;
       getMatches := inr ["/w/a.txt"] |}
  else if String.eqb text "sub/b.txt" then
    {| originalPath := text; normalizedPath := "/w/sub"; hasMagic := false;
       getMatches := inr ["/w/sub/b.txt"] |}
  else if String.eqb text "dir/**/*.txt" then
    {| originalPath := text; normalizedPath := "/w/dir"; hasMagic := true;
       getMatches := inr ["/w/dir/x.txt"; "/w/dir/y/z.txt"] |}
  else
    {| originalPath := text; normalizedPath := "/w";
       hasMagic := has_star text; getMatches := inr [] |}.

Definition demoHost : Host :=
  {| process_cwd := "/w";
     os_cpus := 2;
     glob_hasMagic := has_star;
     newGlobPattern := λ pattern _ _, demoPattern pattern;
     cpFile := λ src _ _,
       {| ticks := [tick src 0 0; tick src 10 1]; failure := None |} |}.

Definition noOptions : UserOptions :=
  {| user_concurrency := None; user_ignoreJunk := None; user_flat := None;
     user_cwd := None; user_overwrite := None; user_rename := NoRename;
     user_filter := None |}.

Definition flatOptions : UserOptions :=
  {| user_concurrency := None; user_ignoreJunk := None;
     user_flat := Some true; user_cwd := None; user_overwrite := None;
     user_rename := NoRename; user_filter := None |}.

Definition demoEntry (pattern sourcePath : string) : Entry :=
  newEntry sourcePath (relative "/w" "/w" sourcePath) (demoPattern pattern).

Definition demoTicks : list ProgressData.t :=
  [tick "/w/a.txt" 0 0; tick "/w/sub/b.txt" 0 0; tick "/w/a.txt" 5 (1 # 2);
   tick "/w/sub/b.txt" 7 1; tick "/w/sub/b.txt" 7 1; tick "/w/a.txt" 10 1].

Definition demoLiterals : list Entry :=
  [demoEntry "a.txt" "/w/a.txt"; demoEntry "sub/b.txt" "/w/sub/b.txt"].

Definition halfway : Aggregator :=
  (fileProgressHandler 2 newAggregator (tick "/w/a.txt" 5 (1 # 2))).1.

Definition demoMatched : list Entry :=
  [demoEntry "dir/**/*.txt" "/w/dir/x.txt";
   demoEntry "dir/**/*.txt" "/w/dir/y/z.txt";
   demoEntry "a.txt" "/w/a.txt"].

(** The same world with a pattern [*.txt] that finds [a.txt]: together with
    the literal pattern [a.txt] it has one file matched twice. *)
Definition overlapPattern (text : string) : GlobPattern :=
  if String.eqb text "*.txt" then
    {| originalPath := text; normalizedPath := "/w"; hasMagic := true;
       getMatches := inr ["/w/a.txt"] |}
  else demoPattern text.

Definition overlapHost : Host :=
  {| process_cwd := "/w";
     os_cpus := 2;
     glob_hasMagic := has_star;
     newGlobPattern := λ text _ _, overlapPattern text;
     cpFile := cpFile demoHost |}.

Definition overlapEntries : list Entry :=
  [newEntry "/w/a.txt" (relative "/w" "/w" "/w/a.txt") (overlapPattern "a.txt");
   newEntry "/w/a.txt" (relative "/w" "/w" "/w/a.txt") (overlapPattern "*.txt")].

(** Three files, the first of [2^53] bytes, whose copies report as a
    copy primitive may: byte counts never go down, and the second file is
    reported at its full size before it is reported finished. *)
Definition hugeEntries : list Entry :=
  [demoEntry "a.txt" "/w/a.txt"; demoEntry "sub/b.txt" "/w/sub/b.txt";
   demoEntry "dir/**/*.txt" "/w/dir/x.txt"].

Definition hugeTicks : list ProgressData.t :=
  [tick "/w/sub/b.txt" 1 (1 # 2); tick "/w/a.txt" (2 ^ 53) 1;
   tick "/w/dir/x.txt" 2 1; tick "/w/sub/b.txt" 1 1].

(** The option [{concurrency: 1}]. *)
Definition oneAtATime : UserOptions :=
  {| user_concurrency := Some 1; user_ignoreJunk := None; user_flat := None;
     user_cwd := None; user_overwrite := None; user_rename := NoRename;
     user_filter := None |}.

(** ** Errors, bytes and bounds *)

(** What goes wrong with a pattern in the matching loop, if anything: the
    glob engine raised, or a pattern that is not wildcarded matched
    nothing. *)
Definition offence (h : Host) (gp : GlobPattern) : option CpyError :=
  match getMatches gp with
  | inl msg => Some (GlobError (originalPath gp) msg)
  | inr matches =>
      if (length matches =? 0) && negb (glob_hasMagic h (originalPath gp))
      then Some (NotFoundError (originalPath gp))
      else None
  end.

(** [e] is the error [cpy] makes of the failed copy of one of the entries:
    it names the entry's relative path, the destination computed for it
    and the message of the byte-copy primitive. *)
Definition failedCopy (h : Host) (destination : string) (options : Options)
    (entries : list Entry) (e : CpyError) : Prop :=
  ∃ entry msg,
    entry ∈ entries
    ∧ failure (cpFile h (path entry)
                 (destinationOf h destination options entry) options)
      = Some msg
    ∧ e = CopyError (relativePath entry)
                    (destinationOf h destination options entry) msg.

(** The bytes the status map accounts for: the sum of the recorded
    [written] values. *)
Definition sumWritten (m : gmap string CopyStatus.t) : Z :=
  map_fold (λ _ st acc, (CopyStatus.written st + acc)%Z) 0%Z m.

Definition recordedBytes (a : Aggregator) : Z := sumWritten (copyStatus a).

(** The byte counts of a sequence of ticks, added up. *)
Definition totalWritten (ticks : list ProgressData.t) : Z :=
  foldr (λ t acc, (ProgressData.written t + acc)%Z) 0%Z ticks.

(** Ticks whose byte counts are not negative and add up to at most
    [Number.MAX_SAFE_INTEGER]: the handler's sums and differences are then
    integers that doubles hold exactly. *)
Definition withinSafeRange (ticks : list ProgressData.t) : Prop :=
  Forall (λ t, (0 ≤ ProgressData.written t)%Z) ticks
  ∧ (totalWritten ticks ≤ maxSafeInteger)%Z.

Global Instance withinSafeRange_dec ticks : Decision (withinSafeRange ticks).
Proof. unfold withinSafeRange. apply _. Defined.

(** A [percent] of an aggregate event that does not exceed 1. *)
Definition atMostOne (x : Number) : bool :=
  match x with
  | Finite q => Qle_bool q 1
  | _ => false
  end.

(** A world in which things go wrong: the machine reports no processor,
    the pattern [bad[] makes the glob engine raise, and the copy of
    [sub/b.txt] fails half way. *)
Definition troubledHost : Host :=
  {| process_cwd := "/w";
     os_cpus := 0;
     glob_hasMagic := has_star;
     newGlobPattern := λ text _ _,
       if String.eqb text "bad[" then
         {| originalPath := text; normalizedPath := "/w"; hasMagic := true;
            getMatches := inl "unmatched bracket" |}
       else demoPattern text;
     cpFile := λ src _ _,
       if String.eqb src "/w/sub/b.txt" then
         {| ticks := [tick src 0 0; tick src 3 (3 # 7)];
            failure := Some "EACCES" |}
       else {| ticks := [tick src 0 0; tick src 10 1]; failure := None |} |}.

(** The state in which the copy of [a.txt] alone ends. *)
Definition copiedOne : State :=
  {| promise := Fulfilled [Some "/w/out/a.txt"]; started := 1;
     inflight := []; result := [Some "/w/out/a.txt"];
     aggregator := aggAfter 1 [tick "/w/a.txt" 0 0; tick "/w/a.txt" 10 1];
     emitted := [Progress.mk 1 (Finite (1 # 1)) 1 10] |}.

(* ===================================================================== *)
(** * Facts about strings and paths *)
(* ===================================================================== *)

(** ** Strings *)
Lemma app_nil_s (s : string) : "" +:+ s = s.
Proof. reflexivity. Qed.

Lemma app_cons_s (c : ascii) (a b : string) :
  String c a +:+ b = String c (a +:+ b).
Proof. reflexivity. Qed.

Lemma app_empty_r (s : string) : s +:+ "" = s.
Proof. induction s as [|c s IH]; [done | by rewrite app_cons_s, IH]. Qed.

Lemma app_assoc_s (a b c : string) : (a +:+ b) +:+ c = a +:+ (b +:+ c).
Proof. induction a as [|x a IH]; [done | by rewrite !app_cons_s, IH]. Qed.

Lemma split_nonempty (s : string) : split s ≠ [].
Proof.
  induction s as [|c s IH]; simpl; [done |].
  destruct (is_sep c); [done |]. by destruct (split s).
Qed.

Lemma split_app_sep (a b : string) :
  split (a +:+ "/" +:+ b) = split a ++ split b.
Proof.
  induction a as [|c a IH]; [done |].
  rewrite app_cons_s. simpl.
  rewrite IH. destruct (is_sep c); [done |].
  pose proof (split_nonempty a). by destruct (split a).
Qed.

Lemma split_no_sep (s : string) : has_sep s = false → split s = [s].
Proof.
  induction s as [|c s IH]; simpl; [done |].
  destruct (is_sep c); simpl; [done |]. intros H. by rewrite IH.
Qed.

Lemma split_pieces_no_sep (s : string) :
  Forall (λ x, has_sep x = false) (split s).
Proof.
  induction s as [|c s IH]; simpl; [by constructor |].
  destruct (is_sep c) eqn:E; [by constructor |].
  destruct (split s) as [|x xs]; [by repeat constructor; simpl; rewrite E |].
  inversion IH; subst. constructor; [simpl; by rewrite E | done].
Qed.

Lemma unsplit_cons (x y : string) (l : list string) :
  unsplit (x :: y :: l) = x +:+ "/" +:+ unsplit (y :: l).
Proof. done. Qed.

Lemma unsplit_split (s : string) : unsplit (split s) = s.
Proof.
  induction s as [|c s IH]; simpl; [done |].
  pose proof (split_nonempty s) as Hne.
  destruct (is_sep c) eqn:E.
  - destruct (split s) as [|x xs]; [done |].
    rewrite unsplit_cons, IH.
    apply Ascii.eqb_eq in E. by subst.
  - destruct (split s) as [|x xs]; [done |].
    destruct xs as [|y ys].
    + unfold unsplit in *. simpl in *. by subst.
    + rewrite unsplit_cons in *. by rewrite app_cons_s, IH.
Qed.

Lemma split_unsplit (l : list string) :
  l ≠ [] → Forall (λ x, has_sep x = false) l → split (unsplit l) = l.
Proof.
  induction l as [|x l IH]; [done |]. intros _ Hl.
  inversion Hl as [|? ? Hx Hl']; subst.
  destruct l as [|y l].
  - unfold unsplit. simpl. by apply split_no_sep.
  - rewrite unsplit_cons, split_app_sep, (split_no_sep x Hx), IH; done.
Qed.

(** ** Directory stacks *)
Lemma is_filename_spec (s : string) :
  is_filename s = true ↔ s ≠ "" ∧ s ≠ "." ∧ s ≠ ".." ∧ has_sep s = false.
Proof.
  unfold is_filename.
  rewrite !andb_true_iff, !negb_true_iff, !String.eqb_neq. tauto.
Qed.

Lemma push_filename a stk s :
  is_filename s = true → push_segment a stk s = s :: stk.
Proof.
  intros (H1 & H2 & H3 & _)%is_filename_spec. unfold push_segment.
  apply String.eqb_neq in H1, H2, H3. by rewrite H1, H2, H3.
Qed.

Lemma push_empty a stk : push_segment a stk "" = stk.
Proof. done. Qed.

Lemma push_dot a stk : push_segment a stk "." = stk.
Proof. done. Qed.

Lemma push_up_filename a stk s :
  is_filename s = true → push_segment a (s :: stk) ".." = stk.
Proof.
  intros (_ & _ & H3 & _)%is_filename_spec. unfold push_segment. simpl.
  apply String.eqb_neq in H3. by rewrite H3.
Qed.

Lemma push_up_ups k : push_segment true (replicate k "..") ".." = replicate (S k) "..".
Proof. by destruct k. Qed.

Lemma push_up_up stk : push_segment true (".." :: stk) ".." = ".." :: ".." :: stk.
Proof. done. Qed.

Lemma segment_cases (s : string) :
  has_sep s = false → s = "" ∨ s = "." ∨ s = ".." ∨ is_filename s = true.
Proof.
  intros H. rewrite is_filename_spec.
  destruct (decide (s = "")); [tauto |].
  destruct (decide (s = ".")); [tauto |].
  destruct (decide (s = "..")); tauto.
Qed.

Lemma stack_ok_top a s stk :
  stack_ok a (s :: stk) →
  (is_filename s = true ∧ stack_ok a stk)
  ∨ (a = true ∧ s = ".." ∧ ∃ k, stk = replicate k "..").
Proof.
  inversion 1 as [k Hk Heq | ]; subst; [| by left].
  right. destruct k as [|k]; simplify_eq/=.
  destruct Hk as [-> | ?]; [| done]. eauto.
Qed.

Lemma push_ok a stk s :
  has_sep s = false → stack_ok a stk → stack_ok a (push_segment a stk s).
Proof.
  intros Hs Hok.
  destruct (segment_cases s Hs) as [-> | [-> | [-> | Hf]]].
  - by rewrite push_empty.
  - by rewrite push_dot.
  - destruct stk as [|top rest].
    + destruct a; simpl.
      * apply (stack_ups true 1). by left.
      * apply (stack_ups false 0). by right.
    + apply stack_ok_top in Hok as [[Hf Hok] | (-> & -> & k & ->)].
      * by rewrite push_up_filename.
      * rewrite push_up_up. apply (stack_ups true (S (S k))). by left.
  - rewrite push_filename by done. by constructor.
Qed.

Lemma fold_ok a l stk :
  Forall (λ x, has_sep x = false) l → stack_ok a stk →
  stack_ok a (foldl (push_segment a) stk l).
Proof.
  intros Hl. revert stk. induction Hl as [|s l Hs Hl IH]; intros stk Hok; simpl;
    [done |]. apply IH. by apply push_ok.
Qed.

Lemma stack_ok_nil a : stack_ok a [].
Proof. apply (stack_ups a 0). by right. Qed.

Lemma segments_ok a p : stack_ok a (rev (segments a p)).
Proof.
  unfold segments. rewrite rev_involutive.
  apply fold_ok; [apply split_pieces_no_sep | apply stack_ok_nil].
Qed.

Lemma stack_ok_filenames stk : stack_ok false stk → Forall (λ s, is_filename s = true) stk.
Proof.
  induction 1 as [k [? | ->] | s stk Hs Hok IH]; [done | constructor | by constructor].
Qed.

Lemma stack_ok_no_sep a stk : stack_ok a stk → Forall (λ s, has_sep s = false) stk.
Proof.
  induction 1 as [k _ | s stk Hs Hok IH].
  - induction k; simpl; by constructor.
  - constructor; [by apply is_filename_spec in Hs as (_ & _ & _ & ?) | done].
Qed.

Lemma stack_ok_not_skipped a stk :
  stack_ok a stk → Forall (λ s, s ≠ "" ∧ s ≠ ".") stk.
Proof.
  induction 1 as [k _ | s stk Hs Hok IH].
  - induction k; simpl; by constructor.
  - constructor; [apply is_filename_spec in Hs; tauto | done].
Qed.

Lemma foldl_snoc {A B} (f : A → B → A) a l x :
  foldl f a (l ++ [x]) = f (foldl f a l) x.
Proof. by rewrite foldl_app. Qed.

(** Pushing the segments of a stack again rebuilds it. *)
Lemma refold a stk :
  stack_ok a stk → foldl (push_segment a) [] (rev stk) = stk.
Proof.
  induction 1 as [k Hk | s stk Hs Hok IH].
  - destruct Hk as [-> | ->]; [| done].
    induction k as [|k IH]; [done |].
    simpl. rewrite foldl_snoc, IH. apply push_up_ups.
  - simpl. rewrite foldl_snoc, IH. by apply push_filename.
Qed.

Lemma fold_filenames a stk l :
  Forall (λ s, is_filename s = true) l →
  foldl (push_segment a) stk l = rev l ++ stk.
Proof.
  intros Hl. revert stk. induction Hl as [|s l Hs Hl IH]; intros stk; simpl; [done |].
  rewrite IH, push_filename by done. by rewrite <- app_assoc.
Qed.

(** Pushing segments one by one has the same effect as pushing the stack
    they reduce to on their own. *)
Lemma fold_net a stk l :
  Forall (λ x, has_sep x = false) l →
  foldl (push_segment a) stk l
  = foldl (push_segment a) stk (rev (foldl (push_segment true) [] l)).
Proof.
  induction l as [|s l IH] using rev_ind; [done |].
  intros [Hl Hs]%Forall_app. rewrite Forall_singleton in Hs.
  rewrite !foldl_snoc, IH by done.
  pose proof (fold_ok true l [] Hl (stack_ok_nil true)) as Hok.
  set (N := foldl (push_segment true) [] l) in *. clearbody N.
  destruct (segment_cases s Hs) as [-> | [-> | [-> | Hf]]].
  - by rewrite !push_empty.
  - by rewrite !push_dot.
  - destruct N as [|top rest]; [done |].
    apply stack_ok_top in Hok as [[Hf Hok] | (_ & -> & k & ->)].
    + rewrite (push_up_filename true) by done. simpl.
      rewrite foldl_snoc, (push_filename a _ top) by done.
      by apply push_up_filename.
    + rewrite push_up_up.
      change (rev (".." :: ".." :: replicate k ".."))
        with (rev (".." :: replicate k "..") ++ [".."]).
      by rewrite foldl_snoc.
  - rewrite (push_filename true) by done. simpl. by rewrite foldl_snoc.
Qed.

(** ** Separators at either end *)
Lemma app_eq_empty (a b : string) : a +:+ b = "" → a = "" ∧ b = "".
Proof. destruct a; [done |]. by rewrite app_cons_s. Qed.

(** Closes [a +:+ b ≠ ""] when [a] is known not to be empty. *)
Ltac glued := by intros [? _]%app_eq_empty.

Lemma isAbsolute_app (a b : string) :
  a ≠ "" → isAbsolute (a +:+ b) = isAbsolute a.
Proof. by destruct a. Qed.

Lemma ends_with_sep_cons c (s : string) :
  s ≠ "" → ends_with_sep (String c s) = ends_with_sep s.
Proof. by destruct s. Qed.

Lemma ends_with_sep_app (a b : string) :
  b ≠ "" → ends_with_sep (a +:+ b) = ends_with_sep b.
Proof.
  intros Hb. induction a as [|c a IH]; [done |].
  rewrite app_cons_s, ends_with_sep_cons, IH; [done |].
  by intros [_ ?]%app_eq_empty.
Qed.

Lemma ends_with_sep_has_sep (s : string) :
  ends_with_sep s = true → has_sep s = true.
Proof.
  induction s as [|c s IH]; [done |].
  destruct s as [|d s]; simpl in *; [by intros -> |].
  intros H. rewrite IH by done. by rewrite orb_true_r.
Qed.

Lemma no_sep_not_ends (s : string) :
  has_sep s = false → ends_with_sep s = false.
Proof.
  intros H. destruct (ends_with_sep s) eqn:E; [| done].
  apply ends_with_sep_has_sep in E. congruence.
Qed.

Lemma no_sep_not_absolute (s : string) :
  has_sep s = false → isAbsolute s = false.
Proof. destruct s as [|c s]; [done |]. simpl. by intros [? _]%orb_false_iff. Qed.

Lemma stack_ok_solid a stk : stack_ok a stk → Forall solid stk.
Proof.
  induction 1 as [k _ | s stk Hs Hok IH].
  - induction k; simpl; by constructor.
  - constructor; [apply is_filename_spec in Hs; unfold solid; tauto | done].
Qed.

Lemma segments_solid a p : Forall solid (segments a p).
Proof.
  rewrite <- (rev_involutive (segments a p)). apply Forall_rev.
  eapply stack_ok_solid, segments_ok.
Qed.

Lemma solid_no_sep st : Forall solid st → Forall (λ x, has_sep x = false) st.
Proof. intros H. eapply Forall_impl; [exact H |]. by intros ? (_ & _ & ?). Qed.

Lemma unsplit_cons_ne (y : string) (l : list string) :
  l ≠ [] → unsplit (y :: l) = y +:+ "/" +:+ unsplit l.
Proof. by destruct l. Qed.

Lemma unsplit_eq_empty (st : list string) :
  Forall solid st → unsplit st = "" → st = [].
Proof.
  destruct st as [|x [|y l]]; [done | |].
  - intros [? _]%Forall_singleton. done.
  - rewrite unsplit_cons. intros _ [_ ?]%app_eq_empty. done.
Qed.

Lemma unsplit_snoc (l : list string) (x : string) :
  l ≠ [] → unsplit (l ++ [x]) = unsplit l +:+ "/" +:+ x.
Proof.
  induction l as [|y l IH]; [done |]. intros _.
  destruct l as [|z l]; [done |].
  rewrite <- app_comm_cons, unsplit_cons_ne by done.
  rewrite IH by done. by rewrite unsplit_cons, !app_assoc_s.
Qed.

Lemma unsplit_ends (st : list string) :
  st ≠ [] → Forall solid st → ends_with_sep (unsplit st) = false.
Proof.
  destruct st as [|x st] using rev_ind; [done |].
  intros _ [Hst Hx]%Forall_app. rewrite Forall_singleton in Hx.
  destruct Hx as (Hne & _ & Hx).
  destruct st as [|y st]; [by apply no_sep_not_ends |].
  rewrite unsplit_snoc, <- app_assoc_s, ends_with_sep_app by done.
  by apply no_sep_not_ends.
Qed.

Lemma unsplit_not_absolute (st : list string) :
  Forall solid st → isAbsolute (unsplit st) = false.
Proof.
  destruct st as [|x st]; [done |]. intros Hst.
  inversion Hst as [|? ? (Hne & _ & Hx) _]; subst.
  destruct st as [|y st]; [by apply no_sep_not_absolute |].
  rewrite unsplit_cons, isAbsolute_app by done. by apply no_sep_not_absolute.
Qed.

(** ** [normalize] *)
Lemma split_sep_l (s : string) : split ("/" +:+ s) = "" :: split s.
Proof. done. Qed.

Lemma split_sep_r (s : string) : split (s +:+ "/") = split s ++ [""].
Proof. exact (split_app_sep s ""). Qed.

Lemma render_nonempty abs st tr : Forall solid st → render abs st tr ≠ "".
Proof.
  intros Hst.
  destruct st as [|x st]; [by destruct abs, tr |].
  unfold render. destruct abs; [done |].
  intros H. destruct tr.
  - by apply app_eq_empty in H as [_ ?].
  - by apply unsplit_eq_empty in H.
Qed.

Lemma isAbsolute_render abs st tr :
  Forall solid st → isAbsolute (render abs st tr) = abs.
Proof.
  intros Hst. destruct st as [|x st]; [by destruct abs, tr |].
  unfold render. destruct abs; [done |].
  destruct tr; [| by apply unsplit_not_absolute].
  rewrite isAbsolute_app; [by apply unsplit_not_absolute |].
  intros H. by apply unsplit_eq_empty in H.
Qed.

Lemma ends_with_sep_render abs st tr :
  Forall solid st →
  ends_with_sep (render abs st tr) = tr || (abs && bool_decide (st = [])).
Proof.
  intros Hst. destruct st as [|x st]; [by destruct abs, tr |].
  rewrite bool_decide_eq_false_2, andb_false_r, orb_false_r by done.
  unfold render.
  assert (ends_with_sep (if tr then unsplit (x :: st) +:+ "/" else unsplit (x :: st)) = tr) as H.
  { destruct tr; [by rewrite ends_with_sep_app | by apply unsplit_ends]. }
  destruct abs; [| done].
  rewrite ends_with_sep_app; [done |].
  destruct tr; [by intros [_ ?]%app_eq_empty |].
  intros E. by apply unsplit_eq_empty in E.
Qed.

Lemma fold_split_render a stk abs st tr :
  Forall solid st →
  foldl (push_segment a) stk (split (render abs st tr))
  = foldl (push_segment a) stk st.
Proof.
  intros Hst. destruct st as [|x st]; [by destruct abs, tr |].
  unfold render.
  assert (foldl (push_segment a) stk
            (split (if tr then unsplit (x :: st) +:+ "/" else unsplit (x :: st)))
          = foldl (push_segment a) stk (x :: st)) as H.
  { destruct tr.
    - rewrite split_sep_r, foldl_snoc, push_empty, split_unsplit;
        [done | done | by apply solid_no_sep].
    - rewrite split_unsplit; [done | done | by apply solid_no_sep]. }
  destruct abs; [| done]. by rewrite split_sep_l.
Qed.

Lemma normalize_render (p : string) :
  p ≠ "" →
  normalize p
  = render (isAbsolute p) (segments (negb (isAbsolute p)) p) (ends_with_sep p).
Proof.
  intros Hp. unfold normalize, normalizeString.
  apply String.eqb_neq in Hp. rewrite Hp.
  pose proof (segments_solid (negb (isAbsolute p)) p) as Hs.
  destruct (segments (negb (isAbsolute p)) p) as [|x st] eqn:E; [done |].
  destruct (String.eqb_spec (unsplit (x :: st)) "") as [H | _]; [| done].
  by apply unsplit_eq_empty in H.
Qed.

Lemma segments_render a abs st tr :
  stack_ok a (rev st) → segments a (render abs st tr) = st.
Proof.
  intros Hok. unfold segments.
  rewrite fold_split_render.
  - rewrite <- (rev_involutive st) at 1. by rewrite refold, rev_involutive.
  - rewrite <- (rev_involutive st). by eapply Forall_rev, stack_ok_solid.
Qed.

Lemma normalize_idempotent (p : string) : normalize (normalize p) = normalize p.
Proof.
  destruct (decide (p = "")) as [-> | Hp]; [done |].
  rewrite (normalize_render p Hp).
  set (abs := isAbsolute p). set (st := segments (negb abs) p).
  set (tr := ends_with_sep p).
  assert (Forall solid st) as Hst by apply segments_solid.
  rewrite normalize_render by by apply render_nonempty.
  rewrite isAbsolute_render, ends_with_sep_render by done.
  rewrite segments_render by apply segments_ok.
  destruct st as [|x st']; [by destruct abs, tr |].
  by rewrite bool_decide_eq_false_2, andb_false_r, orb_false_r.
Qed.

(** ** [join] *)
Lemma ends_with_sep_app_sep (x c : string) :
  c ≠ "" → ends_with_sep (x +:+ "/" +:+ c) = ends_with_sep c.
Proof.
  intros Hc. rewrite <- app_assoc_s. by apply ends_with_sep_app.
Qed.

Lemma normalize_nonempty (p : string) : normalize p ≠ "".
Proof.
  destruct (decide (p = "")) as [-> | Hp]; [done |].
  rewrite normalize_render by done. apply render_nonempty, segments_solid.
Qed.

Lemma isAbsolute_normalize (p : string) : isAbsolute (normalize p) = isAbsolute p.
Proof.
  destruct (decide (p = "")) as [-> | Hp]; [done |].
  rewrite normalize_render by done. apply isAbsolute_render, segments_solid.
Qed.

Lemma segments_app_sep a (x y : string) :
  segments a (x +:+ "/" +:+ y)
  = rev (foldl (push_segment a) (rev (segments a x)) (split y)).
Proof.
  unfold segments. by rewrite split_app_sep, foldl_app, rev_involutive.
Qed.

Lemma segments_normalize (p : string) :
  p ≠ "" →
  segments (negb (isAbsolute p)) (normalize p) = segments (negb (isAbsolute p)) p.
Proof.
  intros Hp. rewrite normalize_render by done.
  apply segments_render, segments_ok.
Qed.

Lemma normalize_app_sep (p c : string) :
  p ≠ "" → c ≠ "" →
  normalize (normalize p +:+ "/" +:+ c) = normalize (p +:+ "/" +:+ c).
Proof.
  intros Hp Hc.
  assert (∀ q : string, q ≠ "" → q +:+ "/" +:+ c ≠ "") as Hne.
  { intros q Hq [? _]%app_eq_empty. done. }
  rewrite (normalize_render (normalize p +:+ "/" +:+ c))
    by apply Hne, normalize_nonempty.
  rewrite (normalize_render (p +:+ "/" +:+ c)) by by apply Hne.
  rewrite !isAbsolute_app, isAbsolute_normalize by (done || apply normalize_nonempty).
  rewrite !ends_with_sep_app_sep by done.
  rewrite !segments_app_sep. by rewrite segments_normalize.
Qed.

Lemma normalize_dot_prefix (c : string) :
  c ≠ "" → isAbsolute c = false → normalize ("." +:+ "/" +:+ c) = normalize c.
Proof.
  intros Hc Habs.
  rewrite (normalize_render ("." +:+ "/" +:+ c)) by glued.
  rewrite (normalize_render c) by done.
  rewrite (isAbsolute_app "."), ends_with_sep_app_sep by done.
  rewrite Habs. simpl isAbsolute. by rewrite segments_app_sep.
Qed.

Lemma join_nil : join [] = ".".
Proof. done. Qed.

Lemma join_empty_cons (l : list string) : join ("" :: l) = join l.
Proof. done. Qed.

Lemma join_single (a : string) : a ≠ "" → join [a] = normalize a.
Proof. intros H. unfold join. rewrite filter_cons. by case_decide. Qed.

Lemma join_pair (a c : string) :
  a ≠ "" → c ≠ "" → join [a; c] = normalize (a +:+ "/" +:+ c).
Proof. intros ??. unfold join. rewrite !filter_cons. by repeat case_decide. Qed.

Lemma join_triple (a b c : string) :
  a ≠ "" → b ≠ "" → c ≠ "" →
  join [a; b; c] = normalize (a +:+ "/" +:+ b +:+ "/" +:+ c).
Proof. intros ???. unfold join. rewrite !filter_cons. by repeat case_decide. Qed.

Lemma join_empty_r (a : string) : join [a; ""] = join [a].
Proof. unfold join. by rewrite !filter_cons. Qed.

Lemma join_empty_mid (a c : string) : join [a; ""; c] = join [a; c].
Proof. unfold join. by rewrite !filter_cons. Qed.

Lemma join_empty_last (a b : string) : join [a; b; ""] = join [a; b].
Proof. unfold join. by rewrite !filter_cons. Qed.

Lemma join_nonempty (l : list string) : join l ≠ "".
Proof.
  unfold join. destruct (base.filter _ l); [done | apply normalize_nonempty].
Qed.

Lemma join_normalized (l : list string) : normalize (join l) = join l.
Proof.
  unfold join. destruct (base.filter _ l); [done | apply normalize_idempotent].
Qed.

(** Joining in two steps. *)
Lemma join_join (a b c : string) :
  isAbsolute c = false → join [a; b; c] = join [join [a; b]; c].
Proof.
  intros Hc.
  destruct (decide (c = "")) as [-> | Hcne].
  { rewrite join_empty_last, join_empty_r, join_single by apply join_nonempty.
    by rewrite join_normalized. }
  rewrite (join_pair (join [a; b]) c) by (done || apply join_nonempty).
  destruct (decide (a = "")) as [-> | Ha], (decide (b = "")) as [-> | Hb].
  - rewrite !join_empty_cons, join_nil, join_single by done.
    by rewrite normalize_dot_prefix.
  - rewrite !join_empty_cons, join_pair, join_single by done.
    by rewrite normalize_app_sep.
  - rewrite join_empty_mid, join_empty_r, join_pair, join_single by done.
    by rewrite normalize_app_sep.
  - rewrite join_triple, join_pair by done.
    rewrite normalize_app_sep by (done || glued).
    by rewrite !app_assoc_s.
Qed.

(** ** [dirname] and [basename] *)
Lemma dir_end_seps (t : string) : has_nonsep t = false → dir_end t = None.
Proof.
  induction t as [|c t IH]; [done |]. simpl.
  intros [_ Ht]%orb_false_iff. by rewrite IH, Ht, andb_false_r.
Qed.

Lemma dir_end_last (x t : string) :
  has_sep x = false → has_nonsep t = false → dir_end (x +:+ t) = None.
Proof.
  intros Hx Ht. induction x as [|c x IH]; [by apply dir_end_seps |].
  rewrite app_cons_s. simpl in *. apply orb_false_iff in Hx as [Hc Hx].
  by rewrite IH, Hc.
Qed.

Lemma has_nonsep_app (x t : string) :
  x ≠ "" → has_sep x = false → has_nonsep (x +:+ t) = true.
Proof.
  destruct x as [|c x]; [done |]. intros _. rewrite app_cons_s. simpl.
  by intros [-> _]%orb_false_iff.
Qed.

Lemma dir_end_app (s x t : string) :
  x ≠ "" → has_sep x = false → has_nonsep t = false →
  dir_end (s +:+ "/" +:+ x +:+ t) = Some s.
Proof.
  intros Hne Hx Ht. induction s as [|c s IH].
  - change ("" +:+ "/" +:+ x +:+ t) with (String "/" (x +:+ t)). simpl.
    by rewrite dir_end_last, has_nonsep_app.
  - rewrite app_cons_s. simpl. by rewrite IH.
Qed.

Lemma render_cons abs x st tr :
  render abs (x :: st) tr
  = (if abs then "/" else "") +:+ unsplit (x :: st) +:+ trail tr.
Proof. unfold render, trail. destruct abs, tr; by rewrite ?app_empty_r. Qed.

Lemma dirname_render abs init x tr :
  Forall solid (init ++ [x]) →
  dirname (render abs (init ++ [x]) tr) = render abs init false.
Proof.
  intros [Hinit Hx]%Forall_app. rewrite Forall_singleton in Hx.
  destruct Hx as (Hne & _ & Hx).
  assert (has_nonsep (trail tr) = false) as Ht by by destruct tr.
  destruct init as [|y init].
  - simpl app. rewrite render_cons. change (unsplit [x]) with x.
    destruct abs.
    + change ("/" +:+ x +:+ trail tr) with (String "/" (x +:+ trail tr)).
      simpl. by rewrite dir_end_last.
    + rewrite app_nil_s. destruct x as [|c x]; [done |].
      rewrite app_cons_s. simpl in *. apply orb_false_iff in Hx as [Hc Hx].
      by rewrite dir_end_last, Hc.
  - rewrite <- app_comm_cons, render_cons, app_comm_cons, unsplit_snoc by done.
    rewrite !app_assoc_s.
    destruct abs.
    + change ("/" +:+ unsplit (y :: init) +:+ "/" +:+ x +:+ trail tr)
        with (String "/" (unsplit (y :: init) +:+ "/" +:+ x +:+ trail tr)).
      simpl dirname. rewrite dir_end_app by done.
      destruct (String.eqb_spec (unsplit (y :: init)) "") as [E | _];
        [by apply unsplit_eq_empty in E |].
      done.
    + rewrite app_nil_s.
      pose proof (unsplit_not_absolute _ Hinit) as Habs.
      destruct (unsplit (y :: init)) as [|c s] eqn:E;
        [by apply unsplit_eq_empty in E |].
      rewrite app_cons_s. simpl dirname. rewrite dir_end_app by done.
      simpl in Habs. rewrite Habs. simpl. by rewrite E.
Qed.

Lemma dirname_render_nil abs tr : dirname (render abs [] tr) = render abs [] false.
Proof. by destruct abs, tr. Qed.

Lemma last_component_no_sep (p : string) : has_sep (last_component p) = false.
Proof.
  unfold last_component.
  pose proof (split_pieces_no_sep p) as H.
  destruct (last _) as [x|] eqn:E; [| done]. simpl.
  apply last_Some_elem_of, list_elem_of_filter in E as [_ E].
  by eapply Forall_forall in H.
Qed.

Lemma basename_not_absolute (p : string) : isAbsolute (basename p) = false.
Proof. apply no_sep_not_absolute, last_component_no_sep. Qed.

(** ** [resolve] and [relative] *)

Lemma segments_trailing a (x : string) : segments a (x +:+ "/") = segments a x.
Proof. unfold segments. by rewrite split_sep_r, foldl_snoc, push_empty. Qed.

Lemma resolve_segments_fold (cwd p : string) :
  resolve_segments cwd p
  = rev (foldl (push_segment (rs_allow cwd p)) (rs_base cwd p) (split p)).
Proof.
  unfold resolve_segments, rs_allow, rs_base.
  destruct (String.eqb_spec p "") as [-> | Hp].
  { simpl. by rewrite segments_trailing, push_empty, rev_involutive. }
  destruct (isAbsolute p) eqn:Habs; [by rewrite segments_trailing |].
  destruct (String.eqb_spec cwd "") as [-> | Hc]; [by rewrite segments_trailing |].
  rewrite <- !app_assoc_s, segments_trailing, app_assoc_s.
  by rewrite segments_app_sep.
Qed.

Lemma rs_base_ok cwd p : stack_ok (rs_allow cwd p) (rs_base cwd p).
Proof.
  unfold rs_allow, rs_base. destruct (isAbsolute p); [apply stack_ok_nil |].
  apply segments_ok.
Qed.

Lemma resolve_segments_render cwd abs st tr tr' :
  Forall solid st →
  resolve_segments cwd (render abs st tr) = resolve_segments cwd (render abs st tr').
Proof.
  intros Hst. rewrite !resolve_segments_fold.
  unfold rs_allow, rs_base. rewrite !isAbsolute_render by done.
  by rewrite !fold_split_render.
Qed.

Lemma resolve_segments_normalize cwd (p : string) :
  resolve_segments cwd (normalize p) = resolve_segments cwd p.
Proof.
  destruct (decide (p = "")) as [-> | Hp].
  { rewrite !resolve_segments_fold. done. }
  rewrite !resolve_segments_fold.
  unfold rs_allow, rs_base. rewrite isAbsolute_normalize.
  rewrite normalize_render, fold_split_render by (done || apply segments_solid).
  f_equal. destruct (isAbsolute p) eqn:Habs; simpl.
  - unfold segments. rewrite refold; [done |].
    apply fold_ok; [apply split_pieces_no_sep | apply stack_ok_nil].
  - symmetry. apply fold_net, split_pieces_no_sep.
Qed.

Lemma resolve_segments_join1 cwd (d : string) :
  resolve_segments cwd (join [d]) = resolve_segments cwd d.
Proof.
  destruct (decide (d = "")) as [-> | Hd].
  - apply (resolve_segments_normalize cwd "").
  - rewrite join_single by done. apply resolve_segments_normalize.
Qed.

Lemma filenames_solid (l : list string) :
  Forall (λ s, is_filename s = true) l → Forall solid l.
Proof.
  intros H. eapply Forall_impl; [exact H |].
  intros s Hs%is_filename_spec. unfold solid. tauto.
Qed.

Lemma resolve_segments_join cwd (d : string) (sfx : list string) :
  Forall (λ s, is_filename s = true) sfx →
  resolve_segments cwd (join [d; unsplit sfx]) = resolve_segments cwd d ++ sfx.
Proof.
  intros Hf. pose proof (filenames_solid _ Hf) as Hs.
  destruct (decide (sfx = [])) as [-> | Hne].
  { change (unsplit []) with "". rewrite join_empty_r, app_nil_r.
    apply resolve_segments_join1. }
  assert (unsplit sfx ≠ "") as Hu by (by intros ?%unsplit_eq_empty).
  destruct (decide (d = "")) as [-> | Hd].
  - rewrite join_empty_cons, join_single, resolve_segments_normalize by done.
    rewrite !resolve_segments_fold.
    unfold rs_allow, rs_base. rewrite unsplit_not_absolute by done. simpl.
    rewrite split_unsplit by (done || by apply solid_no_sep).
    rewrite push_empty.
    by rewrite fold_filenames, rev_app_distr, !rev_involutive.
  - rewrite join_pair, resolve_segments_normalize by done.
    rewrite !resolve_segments_fold.
    unfold rs_allow, rs_base. rewrite isAbsolute_app by done.
    rewrite split_app_sep, foldl_app.
    rewrite split_unsplit by (done || by apply solid_no_sep).
    by rewrite fold_filenames, rev_app_distr, !rev_involutive.
Qed.

Lemma strip_common_app (D sfx : list string) :
  strip_common D (D ++ sfx) = ([], sfx).
Proof.
  induction D as [|x D IH]; [by destruct sfx |].
  simpl. by rewrite String.eqb_refl.
Qed.

Lemma relative_under cwd (from to : string) (sfx : list string) :
  resolve_segments cwd to = resolve_segments cwd from ++ sfx →
  relative cwd from to = unsplit sfx.
Proof.
  intros H. unfold relative.
  destruct (String.eqb_spec from to) as [-> | Hne].
  - rewrite <- (app_nil_r (resolve_segments cwd to)) in H at 1.
    apply app_inv_head in H. by subst.
  - by rewrite H, strip_common_app.
Qed.

Lemma resolve_segments_filenames cwd (p : string) :
  isAbsolute cwd = true →
  Forall (λ s, is_filename s = true) (resolve_segments cwd p).
Proof.
  intros Hc. rewrite resolve_segments_fold.
  apply Forall_rev, stack_ok_filenames.
  assert (rs_allow cwd p = false) as Ha.
  { unfold rs_allow. rewrite Hc. by destruct (isAbsolute p). }
  rewrite <- Ha at 1.
  apply fold_ok; [apply split_pieces_no_sep | apply rs_base_ok].
Qed.

(** ** Paths with one more file name *)

Lemma stack_ok_tail a s stk : stack_ok a (s :: stk) → stack_ok a stk.
Proof.
  intros [[_ ?] | (-> & _ & k & ->)]%stack_ok_top; [done |].
  apply stack_ups. by left.
Qed.

Lemma join_render_filename abs st tr (n : string) :
  stack_ok (negb abs) (rev st) → is_filename n = true →
  join [render abs st tr; n] = render abs (st ++ [n]) false.
Proof.
  intros Hok Hn.
  assert (Forall solid st) as Hst.
  { rewrite <- (rev_involutive st). by eapply Forall_rev, stack_ok_solid. }
  pose proof Hn as (Hne & _ & _ & Hsep)%is_filename_spec.
  pose proof (render_nonempty abs st tr Hst) as Hr.
  rewrite join_pair by done.
  rewrite normalize_render by glued.
  rewrite isAbsolute_app, isAbsolute_render by done.
  rewrite ends_with_sep_app_sep, no_sep_not_ends by done.
  rewrite segments_app_sep, segments_render by done.
  rewrite split_no_sep by done. simpl foldl.
  rewrite push_filename by done. simpl. by rewrite rev_involutive.
Qed.

Lemma dirname_join_filename (r n : string) :
  r ≠ "" → is_filename n = true →
  dirname (join [r; n])
  = render (isAbsolute r) (segments (negb (isAbsolute r)) r) false.
Proof.
  intros Hr Hn.
  pose proof Hn as (Hne & Hdot & _ & Hsep)%is_filename_spec.
  rewrite join_pair, <- normalize_app_sep, <- join_pair
    by (done || apply normalize_nonempty).
  rewrite (normalize_render r) by done.
  rewrite join_render_filename by (done || apply segments_ok).
  apply dirname_render. apply Forall_app. split; [apply segments_solid |].
  apply Forall_singleton. by repeat split.
Qed.

Lemma resolve_eq cwd (p q : string) :
  isAbsolute p = isAbsolute q →
  resolve_segments cwd p = resolve_segments cwd q →
  resolve cwd p = resolve cwd q.
Proof. unfold resolve. by intros -> ->. Qed.

Lemma resolve_render cwd (r : string) :
  r ≠ "" →
  resolve cwd (render (isAbsolute r) (segments (negb (isAbsolute r)) r) false)
  = resolve cwd r.
Proof.
  intros Hr. apply resolve_eq.
  - apply isAbsolute_render, segments_solid.
  - rewrite (resolve_segments_render _ _ _ false (ends_with_sep r))
      by apply segments_solid.
    by rewrite <- normalize_render, resolve_segments_normalize.
Qed.

Lemma dirname_normalized (p : string) :
  normalize p = p →
  ∃ abs st, stack_ok (negb abs) (rev st) ∧ dirname p = render abs st false.
Proof.
  intros Hp.
  assert (p ≠ "") as Hne by (intros ->; done).
  rewrite <- Hp, normalize_render by done.
  exists (isAbsolute p).
  pose proof (segments_ok (negb (isAbsolute p)) p) as Hok.
  pose proof (segments_solid (negb (isAbsolute p)) p) as Hs.
  destruct (segments (negb (isAbsolute p)) p) as [|x st _] using rev_ind.
  - exists []. split; [apply stack_ok_nil | apply dirname_render_nil].
  - exists st. rewrite rev_app_distr in Hok. simpl in Hok.
    split; [by eapply stack_ok_tail | by apply dirname_render].
Qed.

Lemma dirname_join_render abs st (n : string) :
  stack_ok (negb abs) (rev st) → is_filename n = true →
  dirname (join [render abs st false; n]) = render abs st false.
Proof.
  intros Hok Hn. rewrite join_render_filename by done.
  apply dirname_render. apply Forall_app. split.
  - rewrite <- (rev_involutive st). by eapply Forall_rev, stack_ok_solid.
  - apply Forall_singleton. apply is_filename_spec in Hn. unfold solid. tauto.
Qed.

Lemma dirname_nonempty (p : string) : dirname p ≠ "".
Proof.
  destruct p as [|c s]; [done |]. simpl.
  destruct (dir_end s) as [pre|]; [| by destruct (is_sep c)].
  by destruct (is_sep c && String.eqb pre "").
Qed.

Create HintDb paths.
#[global] Hint Resolve segments_solid segments_ok stack_ok_nil
  normalize_nonempty join_nonempty dirname_nonempty : paths.

Lemma preprocess_normalized h entry destination options :
  normalize (preprocessDestinationPath h entry destination options)
  = preprocessDestinationPath h entry destination options.
Proof.
  unfold preprocessDestinationPath.
  repeat match goal with |- context [if ?b then _ else _] => destruct b end;
    apply join_normalized.
Qed.

Lemma join_out (c r : string) :
  r ≠ "" → join [c; "out"; r] = join [c; "out" +:+ "/" +:+ r].
Proof.
  intros Hr. destruct (decide (c = "")) as [-> | Hc].
  - rewrite !join_empty_cons, join_pair, join_single; [done | | done..].
    glued.
  - rewrite join_triple, join_pair; [done | done | | done..].
    glued.
Qed.

Lemma relative_join cwd (c : string) (sfx : list string) :
  Forall (λ s, is_filename s = true) sfx →
  relative cwd c (join [c; unsplit sfx]) = unsplit sfx.
Proof. intros H. by apply relative_under, resolve_segments_join. Qed.

(** On POSIX the [Entry] constructor stores the paths as given. *)
Lemma newEntry_path (p r : string) (pattern : GlobPattern) :
  path (newEntry p r pattern) = p ∧ relativePath (newEntry p r pattern) = r.
Proof. unfold newEntry. simpl. by rewrite !unsplit_split. Qed.

(** ** [renameFile] *)

Lemma renameFile_same_location cwd (path : string) (rename : Rename) :
  newNameIsFilename path rename = true →
  resolve cwd (dirname (renameFile path rename)) = resolve cwd (dirname path).
Proof.
  intros Hname. unfold newNameIsFilename, newName in Hname.
  unfold renameFile.
  destruct rename as [| n | f]; [done | |];
    rewrite dirname_join_filename by auto with paths;
    apply resolve_render; auto with paths.
Qed.

Lemma renameFile_same_dirname (path : string) (rename : Rename) :
  normalize path = path →
  newNameIsFilename path rename = true →
  dirname (renameFile path rename) = dirname path.
Proof.
  intros Hnorm Hname.
  destruct (dirname_normalized path Hnorm) as (abs & st & Hok & Hdir).
  unfold newNameIsFilename, newName in Hname. unfold renameFile.
  destruct rename as [| n | f]; [done | |]; rewrite Hdir;
    by apply dirname_join_render.
Qed.

(** In the copy pipeline the renamed destination stays in the directory
    the destination resolver chose. *)
Lemma destinationOf_directory h destination options entry :
  newNameIsFilename (preprocessDestinationPath h entry destination options)
                    (rename options) = true →
  dirname (destinationOf h destination options entry)
  = dirname (preprocessDestinationPath h entry destination options).
Proof.
  intros Hname. unfold destinationOf.
  apply renameFile_same_dirname; [apply preprocess_normalized | done].
Qed.

(** ** The progress handler *)

Lemma changed_false st t : changed st t = false ↔ agrees st t.
Proof.
  unfold changed, agrees.
  rewrite orb_false_iff, !negb_false_iff, Z.eqb_eq. done.
Qed.

Lemma handler_same total a t :
  changed (statusOf a (ProgressData.src t)) t = false →
  fileProgressHandler total a t = (a, None).
Proof. intros H. unfold fileProgressHandler. by rewrite H. Qed.

Lemma handler_update total a t :
  changed (statusOf a (ProgressData.src t)) t = true →
  ∃ a' e,
    fileProgressHandler total a t = (a', Some e)
    ∧ copyStatus a'
      = <[ProgressData.src t :=
            CopyStatus.mk (ProgressData.written t) (ProgressData.percent t)]>
          (copyStatus a)
    ∧ completedSize a'
      = roundToDouble
          (roundToDouble
             (completedSize a
              - CopyStatus.written (statusOf a (ProgressData.src t)))
           + ProgressData.written t)
    ∧ completedFiles a'
      = (if isDone (ProgressData.percent t)
            && negb (isDone (CopyStatus.percent (statusOf a (ProgressData.src t))))
         then S (completedFiles a) else completedFiles a)
    ∧ e = Progress.mk total (divide (completedFiles a') total)
                      (completedFiles a') (completedSize a').
Proof.
  intros H. unfold fileProgressHandler. rewrite H.
  eexists _, _. split; [done |]. done.
Qed.

Lemma statusOf_after total a t s :
  s ≠ ProgressData.src t →
  statusOf (fileProgressHandler total a t).1 s = statusOf a s.
Proof.
  intros Hne. unfold fileProgressHandler.
  destruct (changed _ t); [| done].
  unfold statusOf. simpl. by rewrite lookup_insert_ne.
Qed.

Lemma statusOf_after_same total a t :
  agrees (statusOf (fileProgressHandler total a t).1 (ProgressData.src t)) t.
Proof.
  unfold fileProgressHandler.
  destruct (changed _ t) eqn:E; [| by apply changed_false].
  unfold statusOf. simpl. rewrite lookup_insert_eq. simpl.
  split; [done | apply Qeq_bool_refl].
Qed.

Lemma ingest_snoc total a l t :
  ingest total a (l ++ [t])
  = ((fileProgressHandler total (ingest total a l).1 t).1,
     (ingest total a l).2
     ++ option_list (fileProgressHandler total (ingest total a l).1 t).2).
Proof.
  revert a. induction l as [|x l IH]; intros a; simpl.
  - destruct (fileProgressHandler total a t) as [a' o]. simpl.
    by rewrite app_nil_r.
  - destruct (fileProgressHandler total a x) as [a' o]. rewrite IH.
    destruct (ingest total a' l) as [a'' os]. simpl.
    by rewrite app_assoc.
Qed.

Section Handler.

Variable total : nat.

Lemma aggAfter_snoc l t :
  aggAfter total (l ++ [t]) = (fileProgressHandler total (aggAfter total l) t).1.
Proof. unfold aggAfter. by rewrite ingest_snoc. Qed.

Lemma outAfter_snoc l t :
  outAfter total (l ++ [t])
  = outAfter total l
    ++ option_list (fileProgressHandler total (aggAfter total l) t).2.
Proof. unfold outAfter, aggAfter. by rewrite ingest_snoc. Qed.

(** The counters always equal those of the last event emitted. *)
Lemma last_event l :
  match last (outAfter total l) with
  | Some e =>
      Progress.completedFiles e = completedFiles (aggAfter total l)
      ∧ Progress.completedSize e = completedSize (aggAfter total l)
      ∧ Progress.totalFiles e = total
      ∧ Progress.percent e = divide (completedFiles (aggAfter total l)) total
  | None =>
      completedFiles (aggAfter total l) = 0
      ∧ completedSize (aggAfter total l) = 0%Z
  end.
Proof.
  induction l as [|t l IH] using rev_ind; [done |].
  rewrite outAfter_snoc, aggAfter_snoc.
  destruct (changed (statusOf (aggAfter total l) (ProgressData.src t)) t) eqn:E.
  - destruct (handler_update total _ _ E) as (a' & e & -> & _ & _ & _ & ->).
    simpl. by rewrite last_snoc.
  - rewrite handler_same by done. simpl. by rewrite app_nil_r.
Qed.

(** The recorded status of a path is the default or that of an earlier tick. *)
Lemma status_from_tick l s :
  statusOf (aggAfter total l) s = unseen
  ∨ ∃ t, t ∈ l ∧ ProgressData.src t = s ∧ agrees (statusOf (aggAfter total l) s) t.
Proof.
  induction l as [|t l IH] using rev_ind; [by left |].
  rewrite aggAfter_snoc.
  destruct (decide (s = ProgressData.src t)) as [-> | Hne].
  - right. exists t. split; [apply elem_of_app; right; by apply list_elem_of_singleton |].
    split; [done |].
    apply statusOf_after_same.
  - rewrite statusOf_after by done.
    destruct IH as [? | (t1 & ? & ? & ?)]; [by left |].
    right. exists t1. split; [apply elem_of_app; by left | done].
Qed.

Lemma wellBehaved_snoc l t :
  wellBehaved (l ++ [t]) →
  wellBehaved l
  ∧ (0 ≤ ProgressData.written t)%Z
  ∧ ∀ t1, t1 ∈ l → ProgressData.src t1 = ProgressData.src t →
      (ProgressData.written t1 ≤ ProgressData.written t)%Z
      ∧ (isDone (ProgressData.percent t1) = true →
         isDone (ProgressData.percent t) = true).
Proof.
  induction l as [|x l IH]; simpl.
  - intros (Hpos & _ & _). split; [done |]. split; [done |].
    intros t1 Ht1. by apply elem_of_nil in Ht1.
  - intros (Hx & Hfollow & Hrest).
    apply Forall_app in Hfollow as [Hl Ht].
    rewrite Forall_singleton in Ht.
    destruct (IH Hrest) as (Hwb & Hpos & Hmono).
    split; [done |]. split; [done |].
    intros t1 [-> | Ht1]%elem_of_cons; [exact Ht | by apply Hmono].
Qed.

Lemma Sorted_snoc {A} (R : A → A → Prop) (l : list A) (x : A) :
  Sorted R l → (∀ y, last l = Some y → R y x) → Sorted R (l ++ [x]).
Proof.
  induction 1 as [|y l Hs IH Hhd]; intros Hlast; simpl.
  - by repeat constructor.
  - constructor.
    + apply IH. intros z Hz. apply Hlast. destruct l; [done | by simpl].
    + destruct l as [|z l]; simpl.
      * constructor. by apply Hlast.
      * constructor. by inversion Hhd.
Qed.

Lemma completedFiles_sorted l :
  Sorted le (Progress.completedFiles <$> outAfter total l).
Proof.
  induction l as [|t l IH] using rev_ind; [constructor |].
  rewrite outAfter_snoc.
  pose proof (last_event l) as Hlast.
  destruct (changed (statusOf (aggAfter total l) (ProgressData.src t)) t) eqn:E.
  - destruct (handler_update total _ _ E) as (a' & e & -> & _ & _ & Hcf & ->).
    simpl. rewrite fmap_app. apply Sorted_snoc; [done |].
    intros y. rewrite fmap_last. simpl.
    destruct (last (outAfter total l)) as [e0|]; [| done].
    intros [= <-]. destruct Hlast as [-> _]. rewrite Hcf.
    destruct (_ && _); lia.
  - rewrite handler_same by done. simpl. by rewrite app_nil_r.
Qed.

Lemma count_ext (f g : string → bool) (paths : list string) :
  (∀ p, p ∈ paths → f p = g p) →
  length (List.filter f paths) = length (List.filter g paths).
Proof.
  induction paths as [|p paths IH]; [done |]. intros H. simpl.
  rewrite <- (H p) by apply list_elem_of_here.
  destruct (f p); simpl; rewrite IH; try done;
    intros q Hq; apply H; by apply list_elem_of_further.
Qed.

Lemma count_flip (f g : string → bool) (paths : list string) (s : string) :
  NoDup paths → s ∈ paths → f s = false → g s = true →
  (∀ p, p ≠ s → f p = g p) →
  length (List.filter g paths) = S (length (List.filter f paths)).
Proof.
  intros Hnd Hs Hf Hg Hother.
  induction Hnd as [|p paths Hp Hnd IH]; [by apply elem_of_nil in Hs |].
  simpl. apply elem_of_cons in Hs as [<- | Hs].
  - rewrite Hf, Hg. simpl. f_equal. apply count_ext.
    intros q Hq. symmetry. apply Hother. by intros ->.
  - rewrite <- (Hother p) by (by intros ->).
    destruct (f p); simpl; by rewrite IH.
Qed.

Lemma count_all (f : string → bool) (paths : list string) :
  (∀ p, p ∈ paths → f p = true) → length (List.filter f paths) = length paths.
Proof.
  induction paths as [|p paths IH]; [done |]. intros H. simpl.
  rewrite (H p) by apply list_elem_of_here. simpl. f_equal. apply IH.
  intros q Hq. by apply H, list_elem_of_further.
Qed.

Lemma done_stays l (t : ProgressData.t) :
  (∀ t1, t1 ∈ l → ProgressData.src t1 = ProgressData.src t →
     isDone (ProgressData.percent t1) = true →
     isDone (ProgressData.percent t) = true) →
  isDone (CopyStatus.percent (statusOf (aggAfter total l) (ProgressData.src t)))
  = true →
  isDone (ProgressData.percent t) = true.
Proof.
  intros Hmono Hdone.
  destruct (status_from_tick l (ProgressData.src t))
    as [Hu | (t1 & Ht1 & Hsrc & _ & Hp)].
  - by rewrite Hu in Hdone.
  - apply (Hmono t1 Ht1 Hsrc). unfold isDone in *.
    eapply Qeq_bool_trans; [| exact Hdone]. by apply Qeq_bool_sym.
Qed.

Lemma completedFiles_counts l (paths : list string) :
  wellBehaved l → NoDup paths →
  (∀ t, t ∈ l → ProgressData.src t ∈ paths) →
  completedFiles (aggAfter total l) = doneCount (aggAfter total l) paths.
Proof.
  intros Hwb Hnd. induction l as [|t l IH] using rev_ind; intros Hin.
  { unfold doneCount. change (aggAfter total []) with newAggregator.
    clear. induction paths as [|p paths IHp]; [done |].
    simpl. unfold statusOf at 1. simpl. by rewrite lookup_empty. }
  apply wellBehaved_snoc in Hwb as (Hl & _ & Hmono).
  assert (ProgressData.src t ∈ paths) as Hsrc.
  { apply Hin, elem_of_app. right. by apply list_elem_of_singleton. }
  specialize (IH Hl). rewrite aggAfter_snoc. unfold doneCount.
  destruct (changed (statusOf (aggAfter total l) (ProgressData.src t)) t) eqn:E.
  - pose proof (statusOf_after total (aggAfter total l) t) as Hother.
    pose proof (statusOf_after_same total (aggAfter total l) t) as [_ Hsame].
    destruct (handler_update total _ _ E) as (a' & e & Heq & _ & _ & Hcf & _).
    rewrite Heq in *. simpl in *. rewrite Hcf, IH.
    2:{ intros t1 Ht1. apply Hin, elem_of_app. by left. }
    assert (isDone (CopyStatus.percent (statusOf a' (ProgressData.src t)))
            = isDone (ProgressData.percent t)) as Hnew.
    { unfold isDone. apply eq_true_iff_eq. split; intros H.
      - eapply Qeq_bool_trans; [| exact H]. by apply Qeq_bool_sym.
      - eapply Qeq_bool_trans; [exact Hsame | exact H]. }
    assert (isDone (CopyStatus.percent
                      (statusOf (aggAfter total l) (ProgressData.src t))) = true
            → isDone (ProgressData.percent t) = true) as Hstays.
    { apply done_stays. intros t1 Ht1 Hs. by apply Hmono. }
    clear Hmono.
    destruct (isDone (ProgressData.percent t)) eqn:Hd;
      destruct (isDone (CopyStatus.percent
                  (statusOf (aggAfter total l) (ProgressData.src t)))) eqn:Ho;
      simpl.
    + apply count_ext. intros p _.
      destruct (decide (p = ProgressData.src t)) as [-> | Hne];
        [by rewrite Hnew, Ho | by rewrite Hother].
    + symmetry. apply (count_flip _ _ _ (ProgressData.src t)); try done.
      intros p Hne. by rewrite Hother.
    + by specialize (Hstays eq_refl).
    + apply count_ext. intros p _.
      destruct (decide (p = ProgressData.src t)) as [-> | Hne];
        [by rewrite Hnew, Ho | by rewrite Hother].
  - rewrite handler_same by done. simpl. apply IH.
    intros t1 Ht1. apply Hin, elem_of_app. by left.
Qed.

Lemma done_recorded l (s : string) :
  wellBehaved l →
  (∃ t, t ∈ l ∧ ProgressData.src t = s ∧ isDone (ProgressData.percent t) = true) →
  isDone (CopyStatus.percent (statusOf (aggAfter total l) s)) = true.
Proof.
  induction l as [|t l IH] using rev_ind.
  { intros _ (t & Ht & _). by apply elem_of_nil in Ht. }
  intros (Hl & _ & Hmono)%wellBehaved_snoc (t0 & Ht0 & Hsrc & Hdone).
  rewrite aggAfter_snoc.
  destruct (decide (s = ProgressData.src t)) as [-> | Hne].
  - pose proof (statusOf_after_same total (aggAfter total l) t) as [_ Hsame].
    unfold isDone. eapply Qeq_bool_trans; [exact Hsame |].
    apply elem_of_app in Ht0 as [Ht0 | ->%list_elem_of_singleton]; [| done].
    by apply (Hmono t0).
  - rewrite statusOf_after by done. apply IH; [done |].
    exists t0. split; [| done].
    apply elem_of_app in Ht0 as [Ht0 | ->%list_elem_of_singleton]; done.
Qed.

Lemma all_files_completed l (paths : list string) :
  wellBehaved l → NoDup paths → finishes paths l →
  completedFiles (aggAfter total l) = length paths.
Proof.
  intros Hwb Hnd [Hin Hall].
  rewrite Forall_forall in Hin. rewrite Forall_forall in Hall.
  rewrite (completedFiles_counts l paths) by done.
  apply count_all. intros p Hp. apply done_recorded; [done |].
  by apply Exists_exists, Hall.
Qed.

End Handler.

Lemma divide_same (n : nat) : n ≠ 0 → is_one (divide n n) = true.
Proof.
  destruct n as [|n]; [done |]. intros _. unfold divide, is_one.
  apply Qeq_bool_iff. unfold Qeq. cbn [Qnum Qden].
  rewrite Z.mul_1_r, Z.mul_1_l.
  by rewrite <- positive_nat_Z, Nat2Pos.id.
Qed.

(** ** Matching *)

Lemma buildPatterns_map h destination options (patterns : list string) :
  buildPatterns h destination options patterns
  = (λ pattern, newGlobPattern h pattern destination options) <$> patterns.
Proof.
  unfold buildPatterns.
  assert (∀ acc,
    instances
      (foldl (λ obj pattern,
                let instance := newGlobPattern h pattern destination options in
                {| rootInstance := Some (default instance (rootInstance obj));
                   instances := instances obj ++ [instance] |})
             acc patterns)
    = instances acc
      ++ ((λ pattern, newGlobPattern h pattern destination options) <$> patterns))
    as H.
  { induction patterns as [|p ps IH]; intros acc; simpl.
    - by rewrite app_nil_r.
    - rewrite IH. simpl. by rewrite <- app_assoc. }
  by rewrite H.
Qed.

Lemma collectEntries_app h options (l1 l2 : list GlobPattern) entries :
  collectEntries h options (l1 ++ l2) entries
  = match collectEntries h options l1 entries with
    | inl e => inl e
    | inr entries' => collectEntries h options l2 entries'
    end.
Proof.
  revert entries. induction l1 as [|p l1 IH]; intros entries; simpl; [done |].
  destruct (getMatches p) as [msg | matches]; [done |].
  destruct (_ && _); [done |]. apply IH.
Qed.

Lemma collectEntries_ok h options (patterns : list GlobPattern) entries result :
  collectEntries h options patterns entries = inr result →
  result = entries ++ entriesInOrder h options patterns.
Proof.
  revert entries. induction patterns as [|p ps IH]; intros entries; simpl.
  - intros [= <-]. unfold entriesInOrder. simpl. by rewrite app_nil_r.
  - unfold entriesInOrder, entriesOfPattern in *. simpl.
    destruct (getMatches p) as [msg | matches]; [done |].
    destruct (_ && _); [done |]. intros ->%IH. by rewrite <- app_assoc.
Qed.

Lemma collectEntries_not_found h options (patterns : list GlobPattern) entries q :
  collectEntries h options patterns entries = inl (NotFoundError q) →
  glob_hasMagic h q = false.
Proof.
  revert entries. induction patterns as [|p ps IH]; intros entries; simpl; [done |].
  destruct (getMatches p) as [msg | matches]; [done |].
  destruct (_ && _) eqn:E; [| apply IH].
  intros [= <-]. apply andb_true_iff in E as [_ E]. by apply negb_true_iff in E.
Qed.


Lemma cpy_rejected_early h source destination user e p ev :
  prepare h source destination (mergeOptions h user) = inl e →
  cpy h source destination user p ev →
  p = RejectedWith e ∧ ev = [].
Proof.
  intros Hprep Hrun. inversion Hrun as [e' He' | entries s He' _]; subst.
  - rewrite Hprep in He'. by injection He' as ->.
  - by rewrite Hprep in He'.
Qed.

(** ** The copying phase *)

Lemma array_set_length {A} i (v : A) arr :
  length (array_set i v arr) = length arr `max` S i.
Proof.
  unfold array_set. case_decide.
  - rewrite length_insert. lia.
  - rewrite !length_app, length_replicate. simpl. lia.
Qed.

Lemma array_set_lookup_eq {A} i (v : A) arr :
  array_set i v arr !! i = Some (Some v).
Proof.
  unfold array_set. case_decide.
  - by apply list_lookup_insert_eq.
  - rewrite lookup_app_r by lia.
    rewrite lookup_app_r by (rewrite length_replicate; lia).
    rewrite length_replicate.
    by replace (i - length arr - (i - length arr)) with 0 by lia.
Qed.

Lemma array_set_lookup_ne {A} i k (v : A) arr :
  k ≠ i → k < length arr → array_set i v arr !! k = arr !! k.
Proof.
  intros Hne Hlt. unfold array_set. case_decide.
  - by apply list_lookup_insert_ne.
  - by apply lookup_app_l.
Qed.

Lemma indices_remove {A} (before after : list (nat * A)) i x :
  NoDup (fst <$> (before ++ (i, x) :: after)) →
  NoDup (fst <$> (before ++ after))
  ∧ (i ∉ fst <$> (before ++ after))
  ∧ ∀ k, k ∈ fst <$> (before ++ after) →
         k ∈ fst <$> (before ++ (i, x) :: after).
Proof.
  rewrite !fmap_app, fmap_cons. simpl. intros Hnd.
  apply NoDup_app in Hnd as (Hb & Hdisj & Ha).
  apply NoDup_cons in Ha as [Hi Ha].
  split; [| split].
  - apply NoDup_app. split; [done |]. split; [| done].
    intros k Hk Hk'. apply (Hdisj k Hk). by apply list_elem_of_further.
  - intros [Hin | Hin]%elem_of_app; [| done].
    apply (Hdisj i Hin). apply list_elem_of_here.
  - intros k [Hk | Hk]%elem_of_app; apply elem_of_app; [by left |].
    right. by apply list_elem_of_further.
Qed.

(** Case analysis on one event of the copying phase. *)
Ltac step_cases Hstep :=
  inversion Hstep as
    [s0 entry Hpending Hroom Hentry
    | s0 before i event rest after Hflight
    | s0 before i after entry Hflight Hentry Hsucceeds
    | s0 before i after entry msg Hflight Hentry Hfails
    | s0 Hpending Hall Hnone];
  subst.

Section Copying.

Variables (h : Host) (j : Job).


(** The events of a run are those the handler emits for the ticks
    delivered so far, in delivery order. *)
Lemma events_of_run s :
  rtc (step h j) (initial j) s →
  ∃ delivered,
    aggregator s = aggAfter (length (job_entries j)) delivered
    ∧ emitted s = emittedFor (job_entries j) delivered.
Proof.
  revert s. apply rtc_ind_r.
  { exists []. unfold emittedFor. simpl. by rewrite app_nil_r. }
  intros s1 s2 _ Hstep (delivered & Hagg & Hev).
  step_cases Hstep; simpl; try by exists delivered.
  exists (delivered ++ [event]). rewrite aggAfter_snoc, Hagg. split; [done |].
  rewrite Hev. unfold emittedFor.
  fold (outAfter (length (job_entries j)) delivered).
  fold (outAfter (length (job_entries j)) (delivered ++ [event])).
  by rewrite outAfter_snoc, app_assoc.
Qed.

Lemma initial_invariant : invariant h j (initial j).
Proof.
  split; simpl; try done; try lia.
  - constructor.
  - intros i Hi. by apply elem_of_nil in Hi.
  - intros v. by destruct (job_concurrency j =? 0).
Qed.

Lemma step_invariant s s' :
  invariant h j s → step h j s s' → invariant h j s'.
Proof.
  intros [Hst Hnd Hin Hlen Hres Hful] Hstep.
  step_cases Hstep; split; simpl.
  - (* start *)
    apply lookup_lt_Some in Hentry. lia.
  - rewrite fmap_app. simpl. apply NoDup_app. split; [done |].
    split; [| by apply NoDup_singleton].
    intros k Hk ->%list_elem_of_singleton. apply Hin in Hk. lia.
  - intros k. rewrite fmap_app. simpl.
    intros [Hk | ->%list_elem_of_singleton]%elem_of_app; [| lia].
    apply Hin in Hk. lia.
  - intros Hpend. specialize (Hlen Hpend). lia.
  - intros k d Hpend Hd Hk Hnot. apply Hres; [done | done | |].
    + rewrite fmap_app in Hnot. simpl in Hnot.
      assert (k ≠ started s) as Hne.
      { intros ->. apply Hnot, elem_of_app. right. apply list_elem_of_here. }
      lia.
    + intros Hk'. apply Hnot. rewrite fmap_app. apply elem_of_app. by left.
  - done.
  - (* tick *)
    done.
  - rewrite Hflight in Hnd. by rewrite !fmap_app, fmap_cons in *.
  - intros k Hk. apply Hin. rewrite Hflight. by rewrite !fmap_app, fmap_cons in *.
  - done.
  - intros k d Hpend Hd Hk Hnot. apply Hres; try done.
    rewrite Hflight. by rewrite !fmap_app, fmap_cons in *.
  - done.
  - (* copied *)
    done.
  - rewrite Hflight in Hnd. by apply indices_remove in Hnd as [? _].
  - intros k Hk. apply Hin. rewrite Hflight.
    rewrite Hflight in Hnd. apply indices_remove in Hnd as (_ & _ & Hsub).
    by apply Hsub.
  - intros Hpend. rewrite Hpend, array_set_length.
    specialize (Hlen Hpend).
    assert (i < started s); [| lia].
    apply Hin. rewrite Hflight, fmap_app, fmap_cons. apply elem_of_app. right.
    apply list_elem_of_here.
  - intros k d Hpend Hd Hk Hnot. rewrite Hpend.
    destruct (decide (k = i)) as [-> | Hne].
    + rewrite array_set_lookup_eq. unfold destinations in Hd.
      rewrite list_lookup_fmap, Hentry in Hd. simpl in Hd. by rewrite Hd.
    + assert (result s !! k = Some (Some d)) as Hold.
      { apply Hres; try done. rewrite Hflight, fmap_app, fmap_cons.
        intros [Hk' | [Hk' | Hk']%elem_of_cons]%elem_of_app; [| done |];
          apply Hnot; rewrite fmap_app; apply elem_of_app; auto. }
      rewrite array_set_lookup_ne; [done | done |]. by eapply lookup_lt_Some.
  - done.
  - (* failed *)
    done.
  - rewrite Hflight in Hnd. by apply indices_remove in Hnd as [? _].
  - intros k Hk. apply Hin. rewrite Hflight.
    rewrite Hflight in Hnd. apply indices_remove in Hnd as (_ & _ & Hsub).
    by apply Hsub.
  - by destruct (promise s).
  - by destruct (promise s).
  - intros v Hv. apply Hful. by destruct (promise s).
  - (* fulfil *)
    done.
  - rewrite Hnone in Hnd. done.
  - intros k Hk. by apply elem_of_nil in Hk.
  - done.
  - done.
  - intros v [= <-]. apply list_eq. intros k.
    rewrite list_lookup_fmap.
    destruct (destinations h j !! k) as [d|] eqn:Hd; simpl.
    + apply Hres; try done.
      * apply lookup_lt_Some in Hd. unfold destinations in Hd.
        rewrite length_fmap in Hd. lia.
      * rewrite Hnone. simpl. apply not_elem_of_nil.
    + apply lookup_ge_None. apply lookup_ge_None in Hd.
      unfold destinations in Hd. rewrite length_fmap in Hd.
      specialize (Hlen Hpending). lia.
Qed.

Lemma reachable_invariant s :
  rtc (step h j) (initial j) s → invariant h j s.
Proof.
  revert s. apply rtc_ind_r; [apply initial_invariant |].
  intros s1 s2 _ Hstep IH. by eapply step_invariant.
Qed.

Lemma fulfilled_in_order s value :
  rtc (step h j) (initial j) s → promise s = Fulfilled value →
  value = Some <$> destinations h j.
Proof. intros Hrun%reachable_invariant. apply (inv_fulfilled _ _ _ Hrun). Qed.

Lemma deliver_ticks k i res (pending : list ProgressData.t) a ev :
  ∃ a' ev',
    rtc (step h j) (between k [(i, pending)] res a ev)
                   (between k [(i, [])] res a' ev').
Proof.
  revert a ev. induction pending as [|t pending IH]; intros a ev.
  - by exists a, ev.
  - destruct (IH (fileProgressHandler (length (job_entries j)) a t).1
                 (ev ++ option_list
                         (fileProgressHandler (length (job_entries j)) a t).2))
      as (a' & ev' & Hrun).
    exists a', ev'. eapply rtc_l; [| exact Hrun].
    exact (step_tick h j (between k [(i, t :: pending)] res a ev)
             [] i t pending [] eq_refl).
Qed.

(** With a [concurrency] of at least 1 [pMap] starts out pending. *)
Lemma initial_pending :
  1 ≤ job_concurrency j →
  initial j = between 0 [] [] newAggregator (emitted (initial j)).
Proof.
  intros Hconc. unfold initial, between.
  destruct (job_concurrency j) as [|n]; [lia | done].
Qed.

(** Copies one after the other: a schedule that always exists. *)
Lemma sequential_run k :
  1 ≤ job_concurrency j →
  (∀ entry, entry ∈ job_entries j →
     failure (cpFile h (path entry)
                (destinationOf h (job_destination j) (job_options j) entry)
                (job_options j)) = None) →
  k ≤ length (job_entries j) →
  ∃ a ev,
    rtc (step h j) (initial j)
        (between k [] (Some <$> take k (destinations h j)) a ev).
Proof.
  intros Hconc Hok. induction k as [|k IH]; intros Hk.
  - eexists _, _. rewrite initial_pending by done. apply rtc_refl.
  - destruct IH as (a & ev & Hrun); [lia |].
    destruct (lookup_lt_is_Some_2 (job_entries j) k) as [entry Hentry]; [lia |].
    set (to := destinationOf h (job_destination j) (job_options j) entry).
    set (run := cpFile h (path entry) to (job_options j)).
    destruct (deliver_ticks (S k) k (Some <$> take k (destinations h j))
                (ticks run) a ev) as (a' & ev' & Hticks).
    exists a', ev'.
    etrans; [exact Hrun |].
    eapply rtc_l.
    { apply (step_start h j (between k [] _ a ev) entry); simpl; [done | lia | done]. }
    simpl. etrans; [exact Hticks |].
    apply rtc_once.
    assert (Some <$> take (S k) (destinations h j)
            = array_set k to (Some <$> take k (destinations h j))) as ->.
    { assert (destinations h j !! k = Some to) as Hd.
      { unfold destinations. by rewrite list_lookup_fmap, Hentry. }
      rewrite (take_S_r _ _ _ Hd), fmap_app. unfold array_set.
      assert (length (Some <$> take k (destinations h j)) = k) as Hlen.
      { rewrite length_fmap, length_take. unfold destinations.
        rewrite length_fmap. lia. }
      rewrite Hlen. case_decide; [lia |]. by rewrite Nat.sub_diag. }
    apply (step_copied h j (between (S k) [(k, [])] _ a' ev') [] k [] entry);
      [done | done |].
    apply Hok. by eapply list_elem_of_lookup_2.
Qed.

End Copying.

(** A fulfilled promise carries the destinations in entry order. *)
Lemma cpy_fulfilled h source destination user entries value events :
  prepare h source destination (mergeOptions h user) = inr entries →
  cpy h source destination user (Fulfilled value) events →
  value = Some <$> (destinationOf h destination (mergeOptions h user)
                      <$> entries).
Proof.
  intros Hprep Hrun.
  inversion Hrun as [e He | entries' s He Hsteps Hp]; subst.
  rewrite Hprep in He. injection He as <-.
  by apply (fulfilled_in_order _ _ _ _ Hsteps).
Qed.

(** When every copy succeeds the promise can be fulfilled. *)
Lemma cpy_can_fulfil h source destination user entries :
  prepare h source destination (mergeOptions h user) = inr entries →
  1 ≤ default (defaultConcurrency h) (user_concurrency user) →
  (∀ entry, entry ∈ entries →
     failure (cpFile h (path entry)
                (destinationOf h destination (mergeOptions h user) entry)
                (mergeOptions h user)) = None) →
  ∃ events,
    cpy h source destination user
      (Fulfilled (Some <$> (destinationOf h destination (mergeOptions h user)
                              <$> entries)))
      events.
Proof.
  intros Hprep Hconc Hok.
  set (j := jobOf h destination user entries).
  destruct (sequential_run h j (length entries) Hconc Hok) as (a & ev & Hrun);
    [done |].
  exists ev.
  apply (cpy_copies h source destination user entries
           {| promise := Fulfilled (Some <$> destinations h j);
              started := length entries; inflight := [];
              result := Some <$> destinations h j;
              aggregator := a; emitted := ev |} Hprep).
  etrans; [exact Hrun |]. apply rtc_once.
  rewrite firstn_all2 by (unfold destinations; rewrite length_fmap; done).
  exact (step_fulfil h j (between (length entries) [] _ a ev)
           eq_refl eq_refl eq_refl).
Qed.

(* ===================================================================== *)
(** * The properties of the specification *)
(* ===================================================================== *)

(** ** Destination paths *)

(** C1. For an entry of a wildcarded pattern, with [flat] off, the
    destination (before rename) is
    [join(destination, relative(normalizedPath, entry.path))], the source
    path taken relative to the base directory of its pattern.  Hence, for
    a source that lies under that base directory, the path of the output
    relative to the destination is the path of the source relative to the
    base directory: the directory structure is preserved. *)
Theorem structured_destination h entry destination options :
  hasMagic (pattern entry) = true →
  flat options = false →
  preprocessDestinationPath h entry destination options
  = join [destination;
          relative (process_cwd h) (normalizedPath (pattern entry)) (path entry)]
  ∧ (isAbsolute (process_cwd h) = true →
     lies_under (process_cwd h) (normalizedPath (pattern entry)) (path entry) →
     relative (process_cwd h) destination
       (preprocessDestinationPath h entry destination options)
     = relative (process_cwd h) (normalizedPath (pattern entry)) (path entry)).
Proof.
  intros Hmagic Hflat. unfold preprocessDestinationPath.
  rewrite Hmagic, Hflat. split; [done |].
  intros Hcwd [sfx Hsfx].
  rewrite (relative_under _ _ _ sfx Hsfx).
  apply relative_under, resolve_segments_join.
  pose proof (resolve_segments_filenames (process_cwd h) (path entry) Hcwd) as Hf.
  rewrite Hsfx in Hf. by apply Forall_app in Hf as [_ ?].
Qed.

Lemma structured_destination_witness :
  preprocessDestinationPath demoHost (demoEntry "dir/**/*.txt" "/w/dir/y/z.txt")
    "out" (mergeOptions demoHost noOptions)
  = join ["out"; relative "/w" "/w/dir" "/w/dir/y/z.txt"]
  ∧ relative "/w" "out"
      (preprocessDestinationPath demoHost
         (demoEntry "dir/**/*.txt" "/w/dir/y/z.txt")
         "out" (mergeOptions demoHost noOptions))
    = relative "/w" "/w/dir" "/w/dir/y/z.txt".
Proof.
  destruct (structured_destination demoHost
              (demoEntry "dir/**/*.txt" "/w/dir/y/z.txt") "out"
              (mergeOptions demoHost noOptions) eq_refl eq_refl) as [H1 H2].
  split; [exact H1 |].
  apply H2; [reflexivity |]. exists ["y"; "z.txt"]. reflexivity.
Defined.

(** C5. For an entry of a wildcarded pattern, with [flat] on, the
    destination (before rename) is [join(destinationRoot, entry.name)],
    where the root is the destination itself when it is absolute and
    [join(cwd, destination)] otherwise.  Hence the directory of the output
    is the destination root, however deep the source is nested: the two
    resolve to the same directory, and they are the same text when the root
    is written in normal form without a trailing separator. *)
Theorem flat_destination h entry destination options :
  hasMagic (pattern entry) = true →
  flat options = true →
  let destinationRoot :=
    if isAbsolute destination then destination
    else join [cwd options; destination] in
  preprocessDestinationPath h entry destination options
  = join [destinationRoot; name entry]
  ∧ (is_filename (name entry) = true →
     resolve (process_cwd h)
       (dirname (preprocessDestinationPath h entry destination options))
     = resolve (process_cwd h) destinationRoot)
  ∧ (is_filename (name entry) = true →
     normalize destinationRoot = destinationRoot →
     ends_with_sep destinationRoot = false →
     dirname (preprocessDestinationPath h entry destination options)
     = destinationRoot).
Proof.
  intros Hmagic Hflat root.
  assert (preprocessDestinationPath h entry destination options
          = join [root; name entry]) as Heq.
  { unfold preprocessDestinationPath, root. rewrite Hmagic, Hflat.
    destruct (isAbsolute destination); [done |].
    apply join_join, basename_not_absolute. }
  assert (root ≠ "") as Hroot.
  { unfold root. destruct (isAbsolute destination) eqn:E; [by destruct destination |].
    auto with paths. }
  split; [done |]. rewrite Heq. split.
  - intros Hname. rewrite dirname_join_filename by done.
    by apply resolve_render.
  - intros Hname Hnorm Hends. rewrite dirname_join_filename by done.
    transitivity (normalize root); [| exact Hnorm].
    rewrite normalize_render by done. by rewrite Hends.
Qed.

Lemma flat_destination_witness :
  preprocessDestinationPath demoHost (demoEntry "dir/**/*.txt" "/w/dir/y/z.txt")
    "out" (mergeOptions demoHost flatOptions)
  = join [join ["/w"; "out"]; "z.txt"]
  ∧ resolve "/w"
      (dirname (preprocessDestinationPath demoHost
                  (demoEntry "dir/**/*.txt" "/w/dir/y/z.txt")
                  "out" (mergeOptions demoHost flatOptions)))
    = resolve "/w" (join ["/w"; "out"])
  ∧ dirname (preprocessDestinationPath demoHost
               (demoEntry "dir/**/*.txt" "/w/dir/y/z.txt")
               "out" (mergeOptions demoHost flatOptions))
    = join ["/w"; "out"].
Proof.
  destruct (flat_destination demoHost
              (demoEntry "dir/**/*.txt" "/w/dir/y/z.txt") "out"
              (mergeOptions demoHost flatOptions) eq_refl eq_refl)
    as (H1 & H2 & H3).
  split; [exact H1 |].
  split; [apply H2; reflexivity | apply H3; reflexivity].
Defined.

(** C6 (amended). For an entry of a literal pattern the destination
    (before rename) is [join(destination, entry.name)] when the destination
    is absolute and
    [join(cwd, destination, relative(cwd, entry.path))] otherwise.  In
    particular the sources [a.txt] and [sub/b.txt] of the working directory,
    with destination [out], yield [join(cwd, "out/a.txt")] and
    [join(cwd, "out/sub/b.txt")]: the listed paths, under [cwd].  ([flat]
    plays no part for a literal pattern.) *)
Theorem literal_destination h options :
  (∀ entry destination,
     hasMagic (pattern entry) = false →
     preprocessDestinationPath h entry destination options
     = if isAbsolute destination then join [destination; name entry]
       else join [cwd options; destination;
                  relative (process_cwd h) (cwd options) (path entry)])
  ∧ (∀ a b,
       hasMagic (pattern a) = false →
       hasMagic (pattern b) = false →
       path a = join [cwd options; "a.txt"] →
       path b = join [cwd options; "sub/b.txt"] →
       (λ entry, preprocessDestinationPath h entry "out" options) <$> [a; b]
       = [join [cwd options; "out/a.txt"]; join [cwd options; "out/sub/b.txt"]]).
Proof.
  split.
  - intros entry destination Hlit. unfold preprocessDestinationPath.
    by rewrite Hlit.
  - intros a b Ha Hb Hpa Hpb. cbn [fmap list_fmap].
    unfold preprocessDestinationPath.
    rewrite Ha, Hb, Hpa, Hpb. cbn [isAbsolute is_sep Ascii.eqb Bool.eqb].
    rewrite (relative_join _ _ ["a.txt"]) by by repeat constructor.
    rewrite (relative_join _ _ ["sub"; "b.txt"]) by by repeat constructor.
    by rewrite !join_out.
Qed.

Lemma literal_destination_witness :
  (λ entry, preprocessDestinationPath demoHost entry "out"
              (mergeOptions demoHost noOptions))
    <$> [demoEntry "a.txt" "/w/a.txt"; demoEntry "sub/b.txt" "/w/sub/b.txt"]
  = [join ["/w"; "out/a.txt"]; join ["/w"; "out/sub/b.txt"]].
Proof.
  destruct (literal_destination demoHost (mergeOptions demoHost noOptions))
    as [_ H].
  apply H; reflexivity.
Defined.

(** C6 as stated fails: with the default options the working directory is
    that of the process, [/w] here, and the two destinations are
    [/w/out/a.txt] and [/w/out/sub/b.txt], not [out/a.txt] and
    [out/sub/b.txt]. *)
Lemma literal_destination_absolute :
  (λ entry, preprocessDestinationPath demoHost entry "out"
              (mergeOptions demoHost noOptions)) <$> demoLiterals
  = ["/w/out/a.txt"; "/w/out/sub/b.txt"]
  ∧ (λ entry, preprocessDestinationPath demoHost entry "out"
                (mergeOptions demoHost noOptions)) <$> demoLiterals
    ≠ ["out/a.txt"; "out/sub/b.txt"]
  ∧ (∀ value events,
       cpy demoHost (ManySources ["a.txt"; "sub/b.txt"]) "out" noOptions
         (Fulfilled value) events →
       value = [Some "/w/out/a.txt"; Some "/w/out/sub/b.txt"])
  ∧ ∃ events,
      cpy demoHost (ManySources ["a.txt"; "sub/b.txt"]) "out" noOptions
        (Fulfilled [Some "/w/out/a.txt"; Some "/w/out/sub/b.txt"]) events.
Proof.
  split; [vm_compute; reflexivity |].
  split; [vm_compute; discriminate |].
  assert (prepare demoHost (ManySources ["a.txt"; "sub/b.txt"]) "out"
            (mergeOptions demoHost noOptions) = inr demoLiterals) as Hprep
    by reflexivity.
  split.
  - intros value events Hrun. by apply (cpy_fulfilled _ _ _ _ _ _ _ Hprep Hrun).
  - apply (cpy_can_fulfil _ _ _ _ _ Hprep); [vm_compute; lia | done].
Qed.

(** ** Rename *)

(** C2 (amended). When the new file name (the static string, or the result
    of the rename function followed by the old extension) is a single file
    name, [renameFile] changes the file name only: the directory of the
    result is the directory of the path; as text the two directories are
    equal when the path is normalized, which every path the destination
    resolver produces is. *)
Theorem rename_keeps_directory cwd (path : string) (rename : Rename) :
  newNameIsFilename path rename = true →
  resolve cwd (dirname (renameFile path rename)) = resolve cwd (dirname path)
  ∧ (normalize path = path →
     dirname (renameFile path rename) = dirname path).
Proof.
  intros Hname. split.
  - by apply renameFile_same_location.
  - intros Hnorm. by apply renameFile_same_dirname.
Qed.

Lemma rename_keeps_directory_witness :
  (resolve "/w" (dirname (renameFile "/w/out/y/z.txt" (StaticName "x.txt")))
   = resolve "/w" (dirname "/w/out/y/z.txt")
   ∧ dirname (renameFile "/w/out/y/z.txt" (StaticName "x.txt"))
     = dirname "/w/out/y/z.txt")
  ∧ dirname (renameFile "out/y/z.txt" (Computed (λ stem, stem +:+ "-copy")))
    = dirname "out/y/z.txt".
Proof.
  split.
  - destruct (rename_keeps_directory "/w" "/w/out/y/z.txt" (StaticName "x.txt")
                eq_refl) as [H1 H2].
    split; [exact H1 | apply H2; reflexivity].
  - destruct (rename_keeps_directory "/w" "out/y/z.txt"
                (Computed (λ stem, stem +:+ "-copy")) eq_refl) as [_ H].
    apply H. reflexivity.
Defined.

(** C2 as stated fails: a new name that contains a separator moves the
    file into another directory. *)
Lemma rename_moves_directory :
  renameFile "out/a.txt" (StaticName "sub/x.txt") = "out/sub/x.txt"
  ∧ dirname (renameFile "out/a.txt" (StaticName "sub/x.txt")) = "out/sub"
  ∧ dirname "out/a.txt" = "out"
  ∧ dirname (renameFile "out/a.txt" (StaticName "sub/x.txt"))
    ≠ dirname "out/a.txt".
Proof. vm_compute. repeat split; done. Qed.

(** ** Progress *)

(** C10. A first tick [{written: 0, percent: 0}] for a path that is not in
    the status map emits nothing, because the status assumed for such a
    path is [{written: 0, percent: 0}]. *)
Theorem first_zero_tick total a (t : ProgressData.t) :
  copyStatus a !! ProgressData.src t = None →
  ProgressData.written t = 0%Z →
  Qeq (ProgressData.percent t) 0 →
  statusOf a (ProgressData.src t) = CopyStatus.mk 0 0
  ∧ fileProgressHandler total a t = (a, None).
Proof.
  intros Hnone Hw Hp.
  assert (statusOf a (ProgressData.src t) = CopyStatus.mk 0 0) as Hst.
  { unfold statusOf. by rewrite Hnone. }
  split; [done |]. apply handler_same, changed_false. rewrite Hst.
  split; [done |]. apply Qeq_bool_iff. by symmetry.
Qed.

Lemma first_zero_tick_witness :
  statusOf newAggregator "/w/a.txt" = CopyStatus.mk 0 0
  ∧ fileProgressHandler 2 newAggregator (tick "/w/a.txt" 0 0)
    = (newAggregator, None).
Proof.
  apply (first_zero_tick 2 newAggregator (tick "/w/a.txt" 0 0)); reflexivity.
Defined.

(** C7. A tick whose [written] and [percent] equal the values recorded for
    its path emits nothing and leaves the status map and both counters as
    they are; handling a tick a second time does nothing, so that ingesting
    it twice is ingesting it once. *)
Theorem repeated_tick total a (t : ProgressData.t) :
  (∀ st,
     copyStatus a !! ProgressData.src t = Some st →
     CopyStatus.written st = ProgressData.written t →
     Qeq (CopyStatus.percent st) (ProgressData.percent t) →
     fileProgressHandler total a t = (a, None))
  ∧ fileProgressHandler total (fileProgressHandler total a t).1 t
    = ((fileProgressHandler total a t).1, None)
  ∧ ingest total a [t; t] = ingest total a [t].
Proof.
  assert (fileProgressHandler total (fileProgressHandler total a t).1 t
          = ((fileProgressHandler total a t).1, None)) as Hagain.
  { apply handler_same, changed_false, statusOf_after_same. }
  split; [| split; [done |]].
  - intros st Hst Hw Hp. apply handler_same, changed_false.
    unfold statusOf. rewrite Hst.
    change (default unseen (Some st)) with st. split; [done |].
    by apply Qeq_bool_iff.
  - simpl. destruct (fileProgressHandler total a t) as [a1 o1] eqn:E.
    simpl in Hagain. rewrite Hagain. simpl. by rewrite !app_nil_r.
Qed.

Lemma repeated_tick_witness :
  fileProgressHandler 2 halfway (tick "/w/a.txt" 5 (2 # 4)) = (halfway, None)
  ∧ fileProgressHandler 2
      (fileProgressHandler 2 halfway (tick "/w/a.txt" 10 1)).1
      (tick "/w/a.txt" 10 1)
    = ((fileProgressHandler 2 halfway (tick "/w/a.txt" 10 1)).1, None)
  ∧ ingest 2 halfway [tick "/w/a.txt" 10 1; tick "/w/a.txt" 10 1]
    = ingest 2 halfway [tick "/w/a.txt" 10 1].
Proof.
  split.
  - destruct (repeated_tick 2 halfway (tick "/w/a.txt" 5 (2 # 4))) as [H _].
    apply (H (CopyStatus.mk 5 (1 # 2))); reflexivity.
  - destruct (repeated_tick 2 halfway (tick "/w/a.txt" 10 1)) as [_ H].
    exact H.
Defined.

(** C3. The claim fails on the code when one file is matched by two
    patterns: [cpy(['a.txt', '*.txt'], 'out')] has two entries with the one
    source path [/w/a.txt], and the status map is keyed by source path.
    Copied one after the other, the second copy's first tick is measured
    against what the first copy left behind and [completedSize] goes from
    10 down to 0; copied side by side, the second copy's ticks repeat the
    first's and the last event reports 1 file of 2 and [percent] 1/2. *)
Theorem duplicate_source_progress :
  prepare overlapHost (ManySources ["a.txt"; "*.txt"]) "out"
    (mergeOptions overlapHost noOptions) = inr overlapEntries
  ∧ path <$> overlapEntries = ["/w/a.txt"; "/w/a.txt"]
  ∧ cpy overlapHost (ManySources ["a.txt"; "*.txt"]) "out" oneAtATime
      (Fulfilled [Some "/w/out/a.txt"; Some "out/a.txt"])
      [Progress.mk 2 (Finite (1 # 2)) 1 10;
       Progress.mk 2 (Finite (1 # 2)) 1 0;
       Progress.mk 2 (Finite (2 # 2)) 2 10]
  ∧ cpy overlapHost (ManySources ["a.txt"; "*.txt"]) "out" noOptions
      (Fulfilled [Some "/w/out/a.txt"; Some "out/a.txt"])
      [Progress.mk 2 (Finite (1 # 2)) 1 10].
Proof.
  set (first := newEntry "/w/a.txt" (relative "/w" "/w" "/w/a.txt")
                  (overlapPattern "a.txt")).
  set (second := newEntry "/w/a.txt" (relative "/w" "/w" "/w/a.txt")
                   (overlapPattern "*.txt")).
  set (t0 := tick "/w/a.txt" 0 0).
  set (t1 := tick "/w/a.txt" 10 1).
  set (e1 := Progress.mk 2 (Finite (1 # 2)) 1 10).
  set (e2 := Progress.mk 2 (Finite (1 # 2)) 1 0).
  set (e3 := Progress.mk 2 (Finite (2 # 2)) 2 10).
  set (a1 := aggAfter 2 [t0; t1]).
  set (a2 := aggAfter 2 [t0; t1; t0]).
  set (a3 := aggAfter 2 [t0; t1; t0; t1]).
  split; [reflexivity |]. split; [reflexivity |]. split.
  - set (j := jobOf overlapHost "out" oneAtATime overlapEntries).
    apply (cpy_copies overlapHost (ManySources ["a.txt"; "*.txt"]) "out"
             oneAtATime overlapEntries
             {| promise := Fulfilled [Some "/w/out/a.txt"; Some "out/a.txt"];
                started := 2; inflight := [];
                result := [Some "/w/out/a.txt"; Some "out/a.txt"];
                aggregator := a3; emitted := [e1; e2; e3] |} eq_refl).
    fold j.
    eapply rtc_l.
    { exact (step_start overlapHost j (between 0 [] [] newAggregator [])
               first eq_refl (le_n 1) eq_refl). }
    eapply rtc_l.
    { exact (step_tick overlapHost j
               (between 1 [(0, [t0; t1])] [] newAggregator [])
               [] 0 t0 [t1] [] eq_refl). }
    eapply rtc_l.
    { exact (step_tick overlapHost j
               (between 1 [(0, [t1])] [] newAggregator [])
               [] 0 t1 [] [] eq_refl). }
    eapply rtc_l.
    { exact (step_copied overlapHost j (between 1 [(0, [])] [] a1 [e1])
               [] 0 [] first eq_refl eq_refl eq_refl). }
    eapply rtc_l.
    { exact (step_start overlapHost j
               (between 1 [] [Some "/w/out/a.txt"] a1 [e1])
               second eq_refl (le_n 1) eq_refl). }
    eapply rtc_l.
    { exact (step_tick overlapHost j
               (between 2 [(1, [t0; t1])] [Some "/w/out/a.txt"] a1 [e1])
               [] 1 t0 [t1] [] eq_refl). }
    eapply rtc_l.
    { exact (step_tick overlapHost j
               (between 2 [(1, [t1])] [Some "/w/out/a.txt"] a2 [e1; e2])
               [] 1 t1 [] [] eq_refl). }
    eapply rtc_l.
    { exact (step_copied overlapHost j
               (between 2 [(1, [])] [Some "/w/out/a.txt"] a3 [e1; e2; e3])
               [] 1 [] second eq_refl eq_refl eq_refl). }
    apply rtc_once.
    exact (step_fulfil overlapHost j
             (between 2 [] [Some "/w/out/a.txt"; Some "out/a.txt"] a3
                [e1; e2; e3])
             eq_refl eq_refl eq_refl).
  - set (j := jobOf overlapHost "out" noOptions overlapEntries).
    apply (cpy_copies overlapHost (ManySources ["a.txt"; "*.txt"]) "out"
             noOptions overlapEntries
             {| promise := Fulfilled [Some "/w/out/a.txt"; Some "out/a.txt"];
                started := 2; inflight := [];
                result := [Some "/w/out/a.txt"; Some "out/a.txt"];
                aggregator := a1; emitted := [e1] |} eq_refl).
    fold j.
    eapply rtc_l.
    { exact (step_start overlapHost j (between 0 [] [] newAggregator [])
               first eq_refl (le_S _ _ (le_S _ _ (le_S _ _ (le_n 1))))
               eq_refl). }
    eapply rtc_l.
    { exact (step_start overlapHost j
               (between 1 [(0, [t0; t1])] [] newAggregator [])
               second eq_refl (le_S _ _ (le_S _ _ (le_n 2))) eq_refl). }
    eapply rtc_l.
    { exact (step_tick overlapHost j
               (between 2 [(0, [t0; t1]); (1, [t0; t1])] [] newAggregator [])
               [] 0 t0 [t1] [(1, [t0; t1])] eq_refl). }
    eapply rtc_l.
    { exact (step_tick overlapHost j
               (between 2 [(0, [t1]); (1, [t0; t1])] [] newAggregator [])
               [(0, [t1])] 1 t0 [t1] [] eq_refl). }
    eapply rtc_l.
    { exact (step_tick overlapHost j
               (between 2 [(0, [t1]); (1, [t1])] [] newAggregator [])
               [] 0 t1 [] [(1, [t1])] eq_refl). }
    eapply rtc_l.
    { exact (step_tick overlapHost j
               (between 2 [(0, []); (1, [t1])] [] a1 [e1])
               [(0, [])] 1 t1 [] [] eq_refl). }
    eapply rtc_l.
    { exact (step_copied overlapHost j
               (between 2 [(0, []); (1, [])] [] a1 [e1])
               [] 0 [(1, [])] first eq_refl eq_refl eq_refl). }
    eapply rtc_l.
    { exact (step_copied overlapHost j
               (between 2 [(1, [])] [Some "/w/out/a.txt"] a1 [e1])
               [] 1 [] second eq_refl eq_refl eq_refl). }
    apply rtc_once.
    exact (step_fulfil overlapHost j
             (between 2 [] [Some "/w/out/a.txt"; Some "out/a.txt"] a1 [e1])
             eq_refl eq_refl eq_refl).
Qed.

(** ** The operation *)

(** C4. Let a pattern match nothing, the patterns before it having been
    matched without error.  The operation is rejected with the error
    "Cannot copy `pattern`: the file doesn't exist" exactly when the
    pattern is not wildcarded; it is then rejected before the copying phase
    exists, with no event emitted.  When the pattern is wildcarded the
    matching goes on as if the pattern were not there. *)
Theorem missing_source h source destination user pre pattern post found :
  destination ≠ "" →
  buildPatterns h destination (mergeOptions h user) (normalizePatterns source)
  = pre ++ pattern :: post →
  collectEntries h (mergeOptions h user) pre [] = inr found →
  getMatches pattern = inr [] →
  (glob_hasMagic h (originalPath pattern) = false
   ↔ prepare h source destination (mergeOptions h user)
     = inl (NotFoundError (originalPath pattern)))
  ∧ (glob_hasMagic h (originalPath pattern) = false →
     ∀ p ev, cpy h source destination user p ev →
       p = RejectedWith (NotFoundError (originalPath pattern)) ∧ ev = [])
  ∧ (glob_hasMagic h (originalPath pattern) = true →
     collectEntries h (mergeOptions h user) (pre ++ pattern :: post) []
     = collectEntries h (mergeOptions h user) (pre ++ post) []).
Proof.
  intros Hdest Hpatterns Hpre Hnone.
  set (options := mergeOptions h user) in *.
  assert (prepare h source destination options
          = match collectEntries h options (pre ++ pattern :: post) [] with
            | inl e => inl e
            | inr entries => inr (retained options entries)
            end) as Hprep.
  { unfold prepare. rewrite Hpatterns.
    destruct (normalizePatterns source) as [|x xs] eqn:E.
    - rewrite buildPatterns_map in Hpatterns. by destruct pre.
    - apply String.eqb_neq in Hdest. by rewrite Hdest. }
  assert (collectEntries h options (pre ++ pattern :: post) []
          = if glob_hasMagic h (originalPath pattern)
            then collectEntries h options (pre ++ post) []
            else inl (NotFoundError (originalPath pattern))) as Hloop.
  { rewrite !collectEntries_app, Hpre. simpl. rewrite Hnone. simpl.
    destruct (glob_hasMagic h (originalPath pattern)); [| done].
    simpl. by rewrite app_nil_r. }
  assert (glob_hasMagic h (originalPath pattern) = false
          → prepare h source destination options
            = inl (NotFoundError (originalPath pattern))) as Hfail.
  { intros Hlit. by rewrite Hprep, Hloop, Hlit. }
  split; [split; [done |] | split].
  - rewrite Hprep.
    destruct (collectEntries h options (pre ++ pattern :: post) []) as [e|]
      eqn:E; [| done].
    intros [= ->]. by eapply collectEntries_not_found.
  - intros Hlit p ev Hrun. eapply cpy_rejected_early; [| done]. by apply Hfail.
  - intros Hmagic. by rewrite Hloop, Hmagic.
Qed.

Lemma missing_source_witness :
  (glob_hasMagic demoHost "missing.txt" = false
   ↔ prepare demoHost (ManySources ["a.txt"; "missing.txt"; "sub/b.txt"]) "out"
       (mergeOptions demoHost noOptions)
     = inl (NotFoundError "missing.txt"))
  ∧ (glob_hasMagic demoHost "missing.txt" = false →
     ∀ p ev,
       cpy demoHost (ManySources ["a.txt"; "missing.txt"; "sub/b.txt"]) "out"
         noOptions p ev →
       p = RejectedWith (NotFoundError "missing.txt") ∧ ev = [])
  ∧ (glob_hasMagic demoHost "missing.txt" = true →
     collectEntries demoHost (mergeOptions demoHost noOptions)
       ([demoPattern "a.txt"] ++ demoPattern "missing.txt"
                              :: [demoPattern "sub/b.txt"]) []
     = collectEntries demoHost (mergeOptions demoHost noOptions)
         ([demoPattern "a.txt"] ++ [demoPattern "sub/b.txt"]) []).
Proof.
  apply (missing_source demoHost
           (ManySources ["a.txt"; "missing.txt"; "sub/b.txt"]) "out" noOptions
           [demoPattern "a.txt"] (demoPattern "missing.txt")
           [demoPattern "sub/b.txt"] [demoEntry "a.txt" "/w/a.txt"]).
  - discriminate.
  - reflexivity.
  - reflexivity.
  - reflexivity.
Defined.



(** C9. The entries of an operation are those that pass the filter among
    the matches of the first pattern in match order, then those of the
    second, and so on.  However the copies are scheduled and in whatever
    order they complete, a fulfilled promise carries the destinations of
    the entries in entry order; and when every copy succeeds (and at least
    one copy may be in flight) the promise can be fulfilled. *)
Theorem result_order h source destination user entries :
  prepare h source destination (mergeOptions h user) = inr entries →
  entries
  = retained (mergeOptions h user)
      (entriesInOrder h (mergeOptions h user)
         (buildPatterns h destination (mergeOptions h user)
                        (normalizePatterns source)))
  ∧ (∀ value events,
       cpy h source destination user (Fulfilled value) events →
       value = Some <$> (destinationOf h destination (mergeOptions h user)
                           <$> entries))
  ∧ (1 ≤ default (defaultConcurrency h) (user_concurrency user) →
     (∀ entry, entry ∈ entries →
        failure (cpFile h (path entry)
                   (destinationOf h destination (mergeOptions h user) entry)
                   (mergeOptions h user)) = None) →
     ∃ events,
       cpy h source destination user
         (Fulfilled (Some <$> (destinationOf h destination (mergeOptions h user)
                                 <$> entries)))
         events).
Proof.
  intros Hprep. split; [| split].
  - unfold prepare in Hprep.
    destruct (_ || _); [done |].
    destruct (collectEntries _ _ _ _) as [e | found] eqn:E; [done |].
    apply collectEntries_ok in E. injection Hprep as <-. by subst.
  - intros value events. by apply cpy_fulfilled.
  - by apply cpy_can_fulfil.
Qed.

Lemma result_order_witness :
  (∀ value events,
     cpy demoHost (ManySources ["dir/**/*.txt"; "a.txt"]) "out" noOptions
       (Fulfilled value) events →
     value = [Some "out/x.txt"; Some "out/y/z.txt"; Some "/w/out/a.txt"])
  ∧ ∃ events,
      cpy demoHost (ManySources ["dir/**/*.txt"; "a.txt"]) "out" noOptions
        (Fulfilled [Some "out/x.txt"; Some "out/y/z.txt"; Some "/w/out/a.txt"])
        events.
Proof.
  destruct (result_order demoHost (ManySources ["dir/**/*.txt"; "a.txt"]) "out"
              noOptions demoMatched eq_refl) as (_ & Hall & Hsome).
  split; [exact Hall |].
  apply Hsome.
  - vm_compute. lia.
  - intros entry _. reflexivity.
Defined.

(* ===================================================================== *)
(** * Further facts about strings and paths *)
(* ===================================================================== *)

Lemma length_app_s (a b : string) :
  String.length (a +:+ b) = String.length a + String.length b.
Proof. induction a as [|c a IH]; [done |]. rewrite app_cons_s. simpl. by rewrite IH. Qed.

Lemma eqb_longer (a suf : string) : a ≠ "" → String.eqb (a +:+ suf) suf = false.
Proof.
  intros Ha. apply String.eqb_neq. intros H.
  apply (f_equal String.length) in H. rewrite length_app_s in H.
  destruct a; [done |]. simpl in H. lia.
Qed.

Lemma strip_suffix_unfold (suf s : string) :
  strip_suffix suf s
  = if String.eqb s suf then Some ""
    else match s with
         | EmptyString => None
         | String c s' => String c <$> strip_suffix suf s'
         end.
Proof. by destruct s. Qed.

Lemma strip_suffix_app (a suf : string) : strip_suffix suf (a +:+ suf) = Some a.
Proof.
  induction a as [|c a IH].
  - rewrite app_nil_s, strip_suffix_unfold. by rewrite String.eqb_refl.
  - rewrite strip_suffix_unfold, eqb_longer by done.
    rewrite app_cons_s. by rewrite IH.
Qed.

Lemma from_last_dot_suffix (s e : string) :
  from_last_dot s = Some e → ∃ pre, s = pre +:+ e.
Proof.
  revert e. induction s as [|c s IH]; intros e; simpl; [done |].
  destruct (from_last_dot s) as [e'|].
  - intros [= <-]. destruct (IH e' eq_refl) as [pre ->].
    by exists (String c pre).
  - destruct (is_dot c); [| done]. intros [= <-]. by exists "".
Qed.

Lemma from_last_dot_self (s e : string) :
  from_last_dot s = Some e → from_last_dot e = Some e.
Proof.
  revert e. induction s as [|c s IH]; intros e; simpl; [done |].
  destruct (from_last_dot s) as [e'|] eqn:E.
  - intros [= <-]. by apply IH.
  - destruct (is_dot c) eqn:Hc; [| done]. intros [= <-]. simpl.
    by rewrite E, Hc.
Qed.

Lemma from_last_dot_app (a e : string) :
  from_last_dot e = Some e → from_last_dot (a +:+ e) = Some e.
Proof.
  intros He. induction a as [|c a IH]; [done |].
  rewrite app_cons_s. simpl. by rewrite IH.
Qed.

Lemma from_last_dot_nonempty (s e : string) : from_last_dot s = Some e → e ≠ "".
Proof. intros H%from_last_dot_self. by destruct e. Qed.

Lemma split_piece_length (p x : string) :
  x ∈ split p → String.length x ≤ String.length p.
Proof.
  revert x. induction p as [|c p IH]; intros x; simpl.
  - intros ->%list_elem_of_singleton. done.
  - destruct (is_sep c).
    + intros [-> | Hx]%elem_of_cons; [simpl; lia |].
      specialize (IH x Hx). lia.
    + pose proof (split_nonempty p) as Hne.
      destruct (split p) as [|y ys]; [done |].
      intros [-> | Hx]%elem_of_cons.
      * specialize (IH y (list_elem_of_here _ _)). simpl. lia.
      * specialize (IH x (list_elem_of_further _ _ _ Hx)). lia.
Qed.

Lemma last_component_length (p : string) :
  String.length (last_component p) ≤ String.length p.
Proof.
  unfold last_component.
  destruct (last _) as [x|] eqn:E; simpl; [| lia].
  apply last_Some_elem_of, list_elem_of_filter in E as [_ E].
  by apply split_piece_length.
Qed.

(** The file name is its stem followed by its extension. *)
Lemma stem_extension (p : string) :
  basename_without p (extname p) +:+ extname p = basename p.
Proof.
  unfold basename_without, extname, basename.
  pose proof (last_component_length p) as Hlen.
  destruct (last_component p) as [|c rest] eqn:Hcomp; [done |].
  destruct (String.eqb (String c rest) "..") eqn:Hup;
    [by rewrite app_empty_r |].
  destruct (from_last_dot rest) as [e|] eqn:He; cbn [from_option id];
    [| by rewrite app_empty_r].
  pose proof (from_last_dot_nonempty _ _ He) as Hne.
  destruct (from_last_dot_suffix _ _ He) as [pre ->].
  assert (String.length e < String.length p) as Hlt.
  { simpl in Hlen. rewrite length_app_s in Hlen. lia. }
  apply String.eqb_neq in Hne. rewrite Hne.
  assert ((String.length p <? String.length e) = false) as ->
    by (apply Nat.ltb_ge; lia).
  assert (String.eqb e p = false) as ->.
  { apply String.eqb_neq. intros ->. lia. }
  change (String c (pre +:+ e)) with (String c pre +:+ e).
  by rewrite strip_suffix_app.
Qed.

(** An extension is empty or a dot followed by text without dots. *)
Lemma extname_shape (p : string) :
  extname p = "" ∨ from_last_dot (extname p) = Some (extname p).
Proof.
  unfold extname. destruct (last_component p) as [|c rest]; [by left |].
  destruct (String.eqb _ ".."); [by left |].
  destruct (from_last_dot rest) as [e|] eqn:He; simpl; [| by left].
  right. by eapply from_last_dot_self.
Qed.

Lemma filter_solid (st : list string) :
  Forall solid st → base.filter (λ s, s ≠ "") st = st.
Proof.
  induction 1 as [|x st (Hx & _) _ IH]; [done |].
  rewrite filter_cons. case_decide; [by rewrite IH | done].
Qed.

Lemma split_render abs x st tr :
  Forall solid (x :: st) →
  split (render abs (x :: st) tr)
  = (if abs then [""] else []) ++ (x :: st) ++ (if tr then [""] else []).
Proof.
  intros Hst. unfold render.
  assert (split (if tr then unsplit (x :: st) +:+ "/" else unsplit (x :: st))
          = (x :: st) ++ (if tr then [""] else [])) as H.
  { destruct tr.
    - rewrite split_sep_r, split_unsplit; [done | done | by apply solid_no_sep].
    - rewrite split_unsplit, app_nil_r; [done | done | by apply solid_no_sep]. }
  destruct abs; [| done]. by rewrite split_sep_l, H.
Qed.

Lemma basename_render abs init x tr :
  Forall solid (init ++ [x]) →
  basename (render abs (init ++ [x]) tr) = x.
Proof.
  intros Hst. unfold basename, last_component.
  destruct (init ++ [x]) as [|y l] eqn:E; [by destruct init |].
  rewrite split_render by done. rewrite !filter_app, (filter_solid (y :: l)) by done.
  rewrite <- E.
  assert (base.filter (λ s : string, s ≠ "") (if tr then [""] else []) = []) as ->
    by by destruct tr.
  rewrite app_nil_r, last_app. by rewrite last_snoc.
Qed.

Lemma join_filename_render (r n : string) :
  r ≠ "" → is_filename n = true →
  join [r; n]
  = render (isAbsolute r) (segments (negb (isAbsolute r)) r ++ [n]) false.
Proof.
  intros Hr Hn.
  pose proof Hn as (Hne & _)%is_filename_spec.
  rewrite join_pair, <- normalize_app_sep, <- join_pair
    by (done || apply normalize_nonempty).
  rewrite (normalize_render r) by done.
  apply join_render_filename; [apply segments_ok | done].
Qed.

Lemma filename_solid (n : string) : is_filename n = true → solid n.
Proof. intros H%is_filename_spec. unfold solid. tauto. Qed.

Lemma basename_join_filename (r n : string) :
  r ≠ "" → is_filename n = true → basename (join [r; n]) = n.
Proof.
  intros Hr Hn. rewrite join_filename_render by done.
  apply basename_render, Forall_app. split; [apply segments_solid |].
  by apply Forall_singleton, filename_solid.
Qed.

Lemma isAbsolute_join (d : string) (rest : list string) :
  d ≠ "" → isAbsolute (join (d :: rest)) = isAbsolute d.
Proof.
  intros Hd. unfold join. rewrite filter_cons. case_decide; [| done].
  rewrite isAbsolute_normalize.
  destruct (base.filter _ rest) as [|y l]; [done |].
  by rewrite unsplit_cons, isAbsolute_app.
Qed.

(** A normalized path without trailing separator is its directory joined
    with its file name. *)
Lemma join_dirname_basename (p : string) :
  normalize p = p → ends_with_sep p = false →
  is_filename (basename p) = true →
  join [dirname p; basename p] = p.
Proof.
  intros Hnorm Hends Hname.
  assert (p ≠ "") as Hne by (intros ->; done).
  pose proof (normalize_render p Hne) as Hp. rewrite Hnorm, Hends in Hp.
  pose proof (segments_ok (negb (isAbsolute p)) p) as Hok.
  pose proof (segments_solid (negb (isAbsolute p)) p) as Hs.
  destruct (segments (negb (isAbsolute p)) p) as [|x st _] using rev_ind.
  - rewrite Hp in Hname. by destruct (isAbsolute p).
  - rewrite Hp at 1 2. rewrite dirname_render, basename_render by done.
    rewrite rev_app_distr in Hok. simpl in Hok.
    rewrite join_render_filename; [by rewrite <- Hp | by eapply stack_ok_tail |].
    rewrite Hp, basename_render in Hname; done.
Qed.

Lemma strip_common_keeps (P : string → Prop) (from to : list string) :
  Forall P from → Forall P to →
  Forall P (strip_common from to).1 ∧ Forall P (strip_common from to).2.
Proof.
  revert to. induction from as [|a from IH]; intros to Hf Ht; [done |].
  destruct to as [|b to]; [done |]. simpl.
  destruct (String.eqb a b); [| done].
  apply IH; [by eapply Forall_cons_1 | by eapply Forall_cons_1].
Qed.

Lemma resolve_segments_solid cwd (p : string) :
  Forall solid (resolve_segments cwd p).
Proof.
  unfold resolve_segments.
  repeat match goal with |- context [if ?b then _ else _] => destruct b end;
    apply segments_solid.
Qed.

Lemma relative_not_absolute cwd (from to : string) :
  isAbsolute (relative cwd from to) = false.
Proof.
  unfold relative. destruct (String.eqb from to); [done |].
  pose proof (strip_common_keeps solid _ _
                (resolve_segments_solid cwd from)
                (resolve_segments_solid cwd to)) as [Hup Hdown].
  revert Hup Hdown.
  destruct (strip_common (resolve_segments cwd from) (resolve_segments cwd to))
    as [up down].
  simpl. intros Hup Hdown.
  apply unsplit_not_absolute, Forall_app. split; [| done].
  apply Forall_fmap, Forall_true. intros ?. by repeat split.
Qed.

Lemma last_component_filename (n : string) :
  is_filename n = true → last_component n = n.
Proof.
  intros (Hne & _ & _ & Hsep)%is_filename_spec. unfold last_component.
  rewrite split_no_sep by done. rewrite filter_cons. by case_decide.
Qed.

Lemma extname_of_component (p : string) :
  extname p = extname (last_component p).
Proof.
  unfold extname.
  assert (last_component (last_component p) = last_component p) as ->; [| done].
  pose proof (last_component_no_sep p) as Hsep.
  unfold last_component at 1. rewrite split_no_sep by done.
  rewrite filter_cons. case_decide; [done |]. simpl. by destruct (last_component p).
Qed.

Lemma from_last_dot_shape (s e : string) :
  from_last_dot s = Some e →
  ∃ rest, e = String "." rest ∧ from_last_dot rest = None.
Proof.
  revert e. induction s as [|c s IH]; intros e; simpl; [done |].
  destruct (from_last_dot s) as [e'|] eqn:E.
  - intros [= <-]. by apply IH.
  - destruct (is_dot c) eqn:Hc; [| done]. intros [= <-]. exists s.
    apply Ascii.eqb_eq in Hc. by subst.
Qed.

Lemma extname_cases (p : string) :
  extname p = ""
  ∨ ∃ rest, extname p = String "." rest ∧ from_last_dot rest = None.
Proof.
  unfold extname. destruct (last_component p) as [|c rest]; [by left |].
  destruct (String.eqb _ ".."); [by left |].
  destruct (from_last_dot rest) as [e|] eqn:He; simpl; [| by left].
  right. by eapply from_last_dot_shape.
Qed.

Lemma extname_app (stem e : string) :
  stem ≠ "" → from_last_dot e = Some e →
  is_filename (stem +:+ e) = true →
  extname (stem +:+ e) = e.
Proof.
  intros Hstem He Hn. unfold extname. rewrite last_component_filename by done.
  pose proof Hn as (_ & _ & Hup & _)%is_filename_spec.
  destruct stem as [|c stem]; [done |]. rewrite app_cons_s.
  apply String.eqb_neq in Hup. rewrite app_cons_s in Hup. rewrite Hup.
  by rewrite from_last_dot_app.
Qed.

(* ===================================================================== *)
(** * Further facts about the operation *)
(* ===================================================================== *)

Lemma collectEntries_clean h options (patterns : list GlobPattern) entries :
  Forall (λ pattern, offence h pattern = None) patterns →
  collectEntries h options patterns entries
  = inr (entries ++ entriesInOrder h options patterns).
Proof.
  intros Hall. revert entries.
  induction Hall as [|p ps Hp _ IH]; intros entries; simpl.
  - unfold entriesInOrder. simpl. by rewrite app_nil_r.
  - unfold offence in Hp. unfold entriesInOrder, entriesOfPattern in *. simpl.
    destruct (getMatches p) as [msg | matches]; [done |].
    destruct (_ && _); [done |]. rewrite IH. by rewrite <- app_assoc.
Qed.

Lemma collectEntries_offence h options pre pattern post entries e :
  Forall (λ pattern, offence h pattern = None) pre →
  offence h pattern = Some e →
  collectEntries h options (pre ++ pattern :: post) entries = inl e.
Proof.
  intros Hpre Hoff. rewrite collectEntries_app, collectEntries_clean by done.
  simpl. unfold offence in Hoff.
  destruct (getMatches pattern) as [msg | matches]; [by injection Hoff as <- |].
  destruct (_ && _); [by injection Hoff as <- | done].
Qed.

Lemma collectEntries_ok_clean h options (patterns : list GlobPattern) entries result :
  collectEntries h options patterns entries = inr result →
  Forall (λ pattern, offence h pattern = None) patterns.
Proof.
  revert entries. induction patterns as [|p ps IH]; intros entries; simpl;
    [by constructor |].
  intros H. constructor.
  - unfold offence. destruct (getMatches p) as [msg | matches]; [done |].
    by destruct (_ && _).
  - destruct (getMatches p) as [msg | matches]; [done |].
    destruct (_ && _); [done |]. by eapply IH.
Qed.

Lemma collectEntries_not_required h options (patterns : list GlobPattern) entries :
  collectEntries h options patterns entries ≠ inl RequiredError.
Proof.
  revert entries. induction patterns as [|p ps IH]; intros entries; simpl; [done |].
  destruct (getMatches p) as [msg | matches]; [done |].
  destruct (_ && _); [done | apply IH].
Qed.

Lemma normalizePatterns_nil source :
  normalizePatterns source = [] ↔ arrify source = [].
Proof.
  unfold normalizePatterns. split; [apply fmap_nil_inv | by intros ->].
Qed.

Lemma prepare_unfold h source destination options :
  normalizePatterns source ≠ [] → destination ≠ "" →
  prepare h source destination options
  = match collectEntries h options
            (buildPatterns h destination options (normalizePatterns source))
            [] with
    | inl e => inl e
    | inr entries => inr (retained options entries)
    end.
Proof.
  intros Hsrc Hdest. unfold prepare.
  destruct (normalizePatterns source) as [|x xs]; [done |].
  apply String.eqb_neq in Hdest. by rewrite Hdest.
Qed.

(** An entry of [prepare]'s result comes from a match of one of the
    patterns. *)
Lemma entriesOfPattern_spec h options gp e :
  e ∈ entriesOfPattern h options gp →
  ∃ matches,
    getMatches gp = inr matches
    ∧ path e ∈ matches
    ∧ pattern e = gp
    ∧ relativePath e = relative (process_cwd h) (cwd options) (path e).
Proof.
  unfold entriesOfPattern. destruct (getMatches gp) as [msg | matches].
  { by intros ?%elem_of_nil. }
  intros (m & -> & Hm)%list_elem_of_fmap. exists matches.
  destruct (newEntry_path m (relative (process_cwd h) (cwd options) m) gp)
    as [Hp Hr].
  rewrite Hp, Hr. done.
Qed.

Lemma retained_subset options entries e :
  e ∈ retained options entries →
  e ∈ entries ∧ ∀ keep, filter options = Some keep → keep e = true.
Proof.
  unfold retained. destruct (filter options) as [keep|].
  - intros [Hin Hk]%list_elem_of_In%filter_In. split.
    + by apply list_elem_of_In.
    + by intros ? [= <-].
  - done.
Qed.

(** X: backslashes in patterns *)
Lemma backslashes_idempotent (s : string) :
  backslashes_to_slashes (backslashes_to_slashes s) = backslashes_to_slashes s.
Proof.
  induction s as [|c s IH]; [done |]. simpl. rewrite IH. f_equal.
  destruct (Ascii.eqb c "\") eqn:E; [done |]. by rewrite E.
Qed.

Lemma normalizePatterns_idempotent source :
  normalizePatterns (ManySources (normalizePatterns source))
  = normalizePatterns source.
Proof.
  unfold normalizePatterns. simpl. rewrite <- list_fmap_compose.
  apply list_fmap_ext. intros _ s _. apply backslashes_idempotent.
Qed.

Lemma prepare_patterns h s1 s2 destination options :
  normalizePatterns s1 = normalizePatterns s2 →
  prepare h s1 destination options = prepare h s2 destination options.
Proof. unfold prepare. by intros ->. Qed.

Lemma cpy_patterns h s1 s2 destination user p ev :
  normalizePatterns s1 = normalizePatterns s2 →
  cpy h s1 destination user p ev → cpy h s2 destination user p ev.
Proof.
  intros Heq Hrun.
  pose proof (prepare_patterns h s1 s2 destination (mergeOptions h user) Heq)
    as Hprep.
  inversion Hrun as [e He | entries s He Hsteps]; subst.
  - apply cpy_throws. by rewrite <- Hprep.
  - apply (cpy_copies h s2 destination user entries s); [by rewrite <- Hprep | done].
Qed.

Section Settling.

Variables (h : Host) (j : Job).

(** A rejection in the copying phase comes from a failed copy. *)
Lemma rejected_by_copy s e :
  rtc (step h j) (initial j) s → promise s = RejectedWith e →
  failedCopy h (job_destination j) (job_options j) (job_entries j) e.
Proof.
  intros Hrun. revert e. revert s Hrun.
  apply (rtc_ind_r (λ s, ∀ e, promise s = RejectedWith e → _)).
  { intros e. simpl. by destruct (job_concurrency j =? 0). }
  intros s1 s2 _ Hstep IH e.
  step_cases Hstep; simpl; try by apply IH.
  - destruct (promise s1) eqn:Hp; try done; try by (intros; apply IH).
    intros [= <-]. exists entry, msg.
    split; [by eapply list_elem_of_lookup_2 | done].
  - done.
Qed.

(** One copy after the other, as long as they succeed. *)
Lemma sequential_prefix k :
  1 ≤ job_concurrency j →
  (∀ i entry, i < k → job_entries j !! i = Some entry →
     failure (cpFile h (path entry)
                (destinationOf h (job_destination j) (job_options j) entry)
                (job_options j)) = None) →
  k ≤ length (job_entries j) →
  ∃ a ev,
    rtc (step h j) (initial j)
        (between k [] (Some <$> take k (destinations h j)) a ev).
Proof.
  intros Hconc. induction k as [|k IH]; intros Hok Hk.
  - eexists _, _. rewrite initial_pending by done. apply rtc_refl.
  - destruct IH as (a & ev & Hrun); [intros i entry Hi; apply Hok; lia | lia |].
    destruct (lookup_lt_is_Some_2 (job_entries j) k) as [entry Hentry]; [lia |].
    set (to := destinationOf h (job_destination j) (job_options j) entry).
    destruct (deliver_ticks h j (S k) k (Some <$> take k (destinations h j))
                (ticks (cpFile h (path entry) to (job_options j))) a ev)
      as (a' & ev' & Hticks).
    exists a', ev'.
    etrans; [exact Hrun |].
    eapply rtc_l.
    { apply (step_start h j (between k [] _ a ev) entry); simpl; [done | lia | done]. }
    simpl. etrans; [exact Hticks |].
    apply rtc_once.
    assert (Some <$> take (S k) (destinations h j)
            = array_set k to (Some <$> take k (destinations h j))) as ->.
    { assert (destinations h j !! k = Some to) as Hd.
      { unfold destinations. by rewrite list_lookup_fmap, Hentry. }
      rewrite (take_S_r _ _ _ Hd), fmap_app. unfold array_set.
      assert (length (Some <$> take k (destinations h j)) = k) as Hlen.
      { rewrite length_fmap, length_take. unfold destinations.
        rewrite length_fmap. lia. }
      rewrite Hlen. case_decide; [lia |]. by rewrite Nat.sub_diag. }
    apply (step_copied h j (between (S k) [(k, [])] _ a' ev') [] k [] entry);
      [done | done |].
    apply (Hok k); [lia | done].
Qed.

(** The first copy to fail can reject the promise. *)
Lemma first_failure_run k entry msg :
  1 ≤ job_concurrency j →
  (∀ i earlier, i < k → job_entries j !! i = Some earlier →
     failure (cpFile h (path earlier)
                (destinationOf h (job_destination j) (job_options j) earlier)
                (job_options j)) = None) →
  job_entries j !! k = Some entry →
  failure (cpFile h (path entry)
             (destinationOf h (job_destination j) (job_options j) entry)
             (job_options j)) = Some msg →
  ∃ s,
    rtc (step h j) (initial j) s
    ∧ promise s
      = RejectedWith
          (CopyError (relativePath entry)
             (destinationOf h (job_destination j) (job_options j) entry) msg).
Proof.
  intros Hconc Hok Hentry Hfail.
  destruct (sequential_prefix k Hconc Hok) as (a & ev & Hrun).
  { apply lookup_lt_Some in Hentry. lia. }
  set (to := destinationOf h (job_destination j) (job_options j) entry) in *.
  destruct (deliver_ticks h j (S k) k (Some <$> take k (destinations h j))
              (ticks (cpFile h (path entry) to (job_options j))) a ev)
    as (a' & ev' & Hticks).
  eexists. split.
  - etrans; [exact Hrun |].
    eapply rtc_l.
    { apply (step_start h j (between k [] _ a ev) entry); simpl; [done | lia | done]. }
    simpl. etrans; [exact Hticks |].
    apply rtc_once.
    apply (step_failed h j (between (S k) [(k, [])] _ a' ev') [] k [] entry msg);
      done.
  - done.
Qed.

End Settling.

Lemma sumWritten_insert (m : gmap string CopyStatus.t) k v :
  sumWritten (<[k := v]> m)
  = (sumWritten m - CopyStatus.written (default unseen (m !! k))
     + CopyStatus.written v)%Z.
Proof.
  unfold sumWritten. destruct (m !! k) as [old|] eqn:Hk; simpl.
  - rewrite (map_fold_delete_L _ _ k old m); [| intros; lia | done].
    rewrite <- insert_delete_eq.
    rewrite map_fold_insert_L; [lia | intros; lia | apply lookup_delete_eq].
  - rewrite map_fold_insert_L; [lia | intros; lia | done].
Qed.

Lemma roundToDouble_safe (z : Z) :
  (Z.abs z ≤ maxSafeInteger)%Z → roundToDouble z = z.
Proof.
  intros Hz. unfold roundToDouble, maxSafeInteger in *.
  assert (Z.log2 (Z.abs z) - 52 ≤ 0)%Z as Hfits.
  { destruct (decide (Z.abs z = 0%Z)) as [-> | Hne]; [done |].
    assert (Z.log2 (Z.abs z) < 53)%Z; [| lia].
    apply Z.log2_lt_pow2; lia. }
  apply Z.leb_le in Hfits. by rewrite Hfits.
Qed.

Lemma sumWritten_nonneg (m : gmap string CopyStatus.t) :
  map_Forall (λ _ st, (0 ≤ CopyStatus.written st)%Z) m → (0 ≤ sumWritten m)%Z.
Proof.
  unfold sumWritten.
  apply (map_fold_weak_ind
           (λ r m, map_Forall (λ _ st, (0 ≤ CopyStatus.written st)%Z) m
                   → (0 ≤ r)%Z)); [done |].
  intros k st m' r Hk IH Hall.
  apply map_Forall_insert in Hall as [Hst Hrest]; [| done].
  specialize (IH Hrest). lia.
Qed.

(** The bytes recorded for one path are part of the recorded sum. *)
Lemma sumWritten_part (m : gmap string CopyStatus.t) k :
  map_Forall (λ _ st, (0 ≤ CopyStatus.written st)%Z) m →
  (0 ≤ CopyStatus.written (default unseen (m !! k)) ≤ sumWritten m)%Z.
Proof.
  intros Hall. destruct (m !! k) as [st|] eqn:Hk; simpl.
  - pose proof (Hall k st Hk) as Hst. simpl in Hst.
    assert (0 ≤ sumWritten (delete k m))%Z as Hothers.
    { apply sumWritten_nonneg. by apply map_Forall_delete. }
    rewrite <- (insert_delete_id m k st Hk), sumWritten_insert.
    rewrite lookup_delete_eq. simpl. lia.
  - split; [done | by apply sumWritten_nonneg].
Qed.

Lemma totalWritten_snoc l t :
  totalWritten (l ++ [t]) = (totalWritten l + ProgressData.written t)%Z.
Proof.
  unfold totalWritten. induction l as [|x l IH]; simpl; [lia |].
  rewrite IH. lia.
Qed.

Lemma withinSafeRange_snoc l t :
  withinSafeRange (l ++ [t]) →
  withinSafeRange l ∧ (0 ≤ ProgressData.written t)%Z
  ∧ (totalWritten l + ProgressData.written t ≤ maxSafeInteger)%Z.
Proof.
  intros [[Hl Ht]%Forall_app Hsum]. rewrite Forall_singleton in Ht.
  rewrite totalWritten_snoc in Hsum. repeat split; [done | lia | done | done].
Qed.

(** Within the safe range the two roundings of the handler change
    nothing. *)
Lemma handler_exact total a t :
  completedSize a = recordedBytes a →
  map_Forall (λ _ st, (0 ≤ CopyStatus.written st)%Z) (copyStatus a) →
  (0 ≤ ProgressData.written t)%Z →
  (recordedBytes a + ProgressData.written t ≤ maxSafeInteger)%Z →
  changed (statusOf a (ProgressData.src t)) t = true →
  completedSize (fileProgressHandler total a t).1
  = (completedSize a - CopyStatus.written (statusOf a (ProgressData.src t))
     + ProgressData.written t)%Z.
Proof.
  intros Hcs Hall Ht Hsum E.
  destruct (handler_update total a t E) as (a' & e & Heq & _ & Hsize & _).
  pose proof (sumWritten_part (copyStatus a) (ProgressData.src t) Hall) as Hold.
  fold (statusOf a (ProgressData.src t)) in Hold.
  rewrite Heq. simpl. rewrite Hsize.
  unfold recordedBytes, maxSafeInteger in *.
  rewrite (roundToDouble_safe (completedSize a - _))
    by (unfold maxSafeInteger; lia).
  apply roundToDouble_safe. unfold maxSafeInteger. lia.
Qed.

Section Bytes.

Variable total : nat.

(** Within the safe range [completedSize] is the sum of the byte counts
    recorded in the status map. *)
Lemma exact_accounts l :
  withinSafeRange l →
  completedSize (aggAfter total l) = recordedBytes (aggAfter total l)
  ∧ map_Forall (λ _ st, (0 ≤ CopyStatus.written st)%Z)
               (copyStatus (aggAfter total l))
  ∧ (recordedBytes (aggAfter total l) ≤ totalWritten l)%Z.
Proof.
  induction l as [|t l IH] using rev_ind.
  { intros _. unfold aggAfter, recordedBytes, sumWritten. simpl.
    rewrite map_fold_empty. split; [done |]. split; [| done].
    apply map_Forall_empty. }
  intros (Hl & Ht & Hsum)%withinSafeRange_snoc.
  destruct (IH Hl) as (Hcs & Hall & Hle).
  rewrite aggAfter_snoc, totalWritten_snoc.
  destruct (changed (statusOf (aggAfter total l) (ProgressData.src t)) t) eqn:E.
  - pose proof (handler_exact total _ t Hcs Hall Ht ltac:(lia) E) as Hexact.
    destruct (handler_update total _ _ E) as (a' & e & Heq & Hmap & _).
    rewrite Heq in *. simpl in *.
    pose proof (sumWritten_part _ (ProgressData.src t) Hall) as Hold.
    fold (statusOf (aggAfter total l) (ProgressData.src t)) in Hold.
    unfold recordedBytes in *. rewrite Hmap, sumWritten_insert. simpl.
    fold (statusOf (aggAfter total l) (ProgressData.src t)).
    split; [lia |]. split; [| lia].
    by apply map_Forall_insert_2.
  - rewrite handler_same by done. simpl. split; [done |]. split; [done | lia].
Qed.

Lemma wellBehaved_nonneg l :
  wellBehaved l → Forall (λ t, (0 ≤ ProgressData.written t)%Z) l.
Proof.
  induction l as [|t l IH]; simpl; [constructor |].
  intros (Ht & _ & Hl). constructor; [done | by apply IH].
Qed.

Lemma completedSize_sorted l :
  wellBehaved l → (totalWritten l ≤ maxSafeInteger)%Z →
  Sorted Z.le (Progress.completedSize <$> outAfter total l).
Proof.
  induction l as [|t l IH] using rev_ind; [constructor |].
  intros Hwb Hsum.
  assert (withinSafeRange (l ++ [t])) as Hsafe
    by (split; [by apply wellBehaved_nonneg | done]).
  apply withinSafeRange_snoc in Hsafe as (Hl & Ht & Hsum').
  apply wellBehaved_snoc in Hwb as (Hwb & Hpos & Hmono).
  destruct (exact_accounts l Hl) as (Hcs & Hall & Hle).
  assert (Sorted Z.le (Progress.completedSize <$> outAfter total l)) as Hsorted.
  { apply IH; [done |]. lia. }
  rewrite outAfter_snoc.
  pose proof (last_event total l) as Hlast.
  destruct (changed (statusOf (aggAfter total l) (ProgressData.src t)) t) eqn:E.
  - pose proof (handler_exact total _ t Hcs Hall Ht ltac:(lia) E) as Hexact.
    destruct (handler_update total _ _ E) as (a' & e & Heq & _ & _ & _ & ->).
    rewrite Heq in *. simpl in *.
    rewrite fmap_app. apply Sorted_snoc; [done |].
    intros y. rewrite fmap_last. simpl.
    destruct (last (outAfter total l)) as [e0|]; [| done].
    intros [= <-]. destruct Hlast as (_ & -> & _). rewrite Hexact.
    destruct (status_from_tick total l (ProgressData.src t))
      as [-> | (t1 & Ht1 & Hsrc & Hw & _)].
    + simpl. lia.
    + rewrite Hw. destruct (Hmono t1 Ht1 Hsrc) as [? _]. lia.
  - rewrite handler_same by done. simpl. by rewrite app_nil_r.
Qed.

End Bytes.

Section Events.

Variable total : nat.

Lemma totalFiles_constant l :
  Forall (λ e, Progress.totalFiles e = total) (outAfter total l).
Proof.
  induction l as [|t l IH] using rev_ind; [constructor |].
  rewrite outAfter_snoc. apply Forall_app. split; [done |].
  destruct (changed (statusOf (aggAfter total l) (ProgressData.src t)) t) eqn:E.
  - destruct (handler_update total _ _ E) as (a' & e & -> & _ & _ & _ & ->).
    simpl. by repeat constructor.
  - rewrite handler_same by done. constructor.
Qed.

Lemma doneCount_le a (paths : list string) : doneCount a paths ≤ length paths.
Proof.
  unfold doneCount. induction paths as [|p paths IH]; [done |].
  simpl. destruct (isDone _); simpl; lia.
Qed.

Lemma divide_le (n m : nat) : n ≤ S m → atMostOne (divide n (S m)) = true.
Proof.
  intros Hle. unfold divide, atMostOne. apply Qle_bool_iff.
  unfold Qle. cbn [Qnum Qden]. rewrite Z.mul_1_r, Z.mul_1_l.
  rewrite <- positive_nat_Z, Nat2Pos.id by done. lia.
Qed.

Lemma completedFiles_bounded (paths : list string) l :
  total = length paths →
  NoDup paths → wellBehaved l →
  Forall (λ t, ProgressData.src t ∈ paths) l →
  Forall (λ e, Progress.completedFiles e ≤ Progress.totalFiles e
               ∧ atMostOne (Progress.percent e) = true)
         (outAfter total l).
Proof.
  intros Htotal Hnd. induction l as [|t l IH] using rev_ind; [constructor |].
  intros Hwb Hin.
  pose proof Hwb as (Hl & _ & _)%wellBehaved_snoc.
  pose proof Hin as [Hinl Ht]%Forall_app. rewrite Forall_singleton in Ht.
  rewrite outAfter_snoc. apply Forall_app. split; [by apply IH |].
  destruct (changed (statusOf (aggAfter total l) (ProgressData.src t)) t) eqn:E.
  - pose proof (completedFiles_counts total (l ++ [t]) paths Hwb Hnd) as Hcount.
    rewrite aggAfter_snoc in Hcount.
    destruct (handler_update total _ _ E) as (a' & e & Heq & _ & _ & _ & ->).
    rewrite Heq in *. simpl in *.
    assert (completedFiles a' ≤ total) as Hle.
    { rewrite Hcount by (by apply Forall_forall).
      rewrite Htotal. apply doneCount_le. }
    repeat constructor; simpl; [done |].
    destruct total as [|n]; [| by apply divide_le].
    destruct paths; [by apply elem_of_nil in Ht | done].
  - rewrite handler_same by done. constructor.
Qed.

End Events.

Lemma Sorted_zero_cons (l : list nat) : Sorted le l → Sorted le (0 :: l).
Proof. intros H. constructor; [done |]. destruct l; constructor. lia. Qed.

(** A run of the small world: [a.txt] is copied, its two ticks are
    delivered, the promise is fulfilled. *)
Lemma copy_of_one :
  cpy demoHost (OneSource "a.txt") "out" noOptions
    (promise copiedOne) (emitted copiedOne).
Proof.
  set (j := jobOf demoHost "out" noOptions [demoEntry "a.txt" "/w/a.txt"]).
  apply (cpy_copies demoHost (OneSource "a.txt") "out" noOptions
           [demoEntry "a.txt" "/w/a.txt"] copiedOne eq_refl).
  fold j.
  eapply rtc_l.
  { exact (step_start demoHost j (initial j) (demoEntry "a.txt" "/w/a.txt")
             eq_refl (le_n_S _ _ (le_0_n _)) eq_refl). }
  eapply rtc_l.
  { exact (step_tick demoHost j
             (between 1 [(0, [tick "/w/a.txt" 0 0; tick "/w/a.txt" 10 1])] []
                newAggregator [])
             [] 0 (tick "/w/a.txt" 0 0) [tick "/w/a.txt" 10 1] [] eq_refl). }
  eapply rtc_l.
  { exact (step_tick demoHost j
             (between 1 [(0, [tick "/w/a.txt" 10 1])] [] newAggregator [])
             [] 0 (tick "/w/a.txt" 10 1) [] [] eq_refl). }
  eapply rtc_l.
  { exact (step_copied demoHost j
             (between 1 [(0, [])] [] (aggregator copiedOne) (emitted copiedOne))
             [] 0 [] (demoEntry "a.txt" "/w/a.txt") eq_refl eq_refl eq_refl). }
  apply rtc_once.
  exact (step_fulfil demoHost j
           (between 1 [] [Some "/w/out/a.txt"]
              (aggregator copiedOne) (emitted copiedOne))
           eq_refl eq_refl eq_refl).
Qed.

(** Every destination the mapper computes is a non-empty path in normal
    form. *)
Lemma destinationOf_normalized h destination options entry :
  normalize (destinationOf h destination options entry)
  = destinationOf h destination options entry
  ∧ destinationOf h destination options entry ≠ "".
Proof.
  unfold destinationOf, renameFile.
  destruct (rename options) as [| n | f];
    [| split; [apply join_normalized | apply join_nonempty]..].
  split; [apply preprocess_normalized |].
  unfold preprocessDestinationPath.
  repeat match goal with |- context [if ?b then _ else _] => destruct b end;
    apply join_nonempty.
Qed.

(* ===================================================================== *)
(** * Further properties of the code *)
(* ===================================================================== *)

(** ** Arguments and patterns *)

(** X1. The operation is rejected with "`source` and `destination`
    required" exactly when there is no source pattern or the destination
    is empty; it is then rejected before anything is matched or copied,
    with no event emitted. *)
Theorem required_arguments h source destination user :
  (prepare h source destination (mergeOptions h user) = inl RequiredError
   ↔ arrify source = [] ∨ destination = "")
  ∧ (arrify source = [] ∨ destination = "" →
     ∀ p ev, cpy h source destination user p ev →
       p = RejectedWith RequiredError ∧ ev = []).
Proof.
  assert (arrify source = [] ∨ destination = ""
          → prepare h source destination (mergeOptions h user)
            = inl RequiredError) as Hfail.
  { intros [Hsrc | ->]; unfold prepare.
    - apply normalizePatterns_nil in Hsrc. by rewrite Hsrc.
    - by rewrite orb_true_r. }
  split; [split; [| done] |].
  - intros Hprep.
    destruct (decide (arrify source = [])) as [| Hsrc]; [by left |].
    destruct (decide (destination = "")) as [| Hdest]; [by right |].
    rewrite prepare_unfold in Hprep; [| by rewrite normalizePatterns_nil | done].
    destruct (collectEntries _ _ _ _) as [e|] eqn:E; [| done].
    injection Hprep as ->. by apply collectEntries_not_required in E.
  - intros Hmissing p ev Hrun. eapply cpy_rejected_early; [| done].
    by apply Hfail.
Qed.

Lemma required_arguments_witness :
  prepare demoHost (OneSource "a.txt") "" (mergeOptions demoHost noOptions)
  = inl RequiredError
  ∧ ∀ p ev, cpy demoHost NoSource "out" noOptions p ev →
      p = RejectedWith RequiredError ∧ ev = [].
Proof.
  split.
  - destruct (required_arguments demoHost (OneSource "a.txt") "" noOptions)
      as [[_ H] _].
    apply H. right. reflexivity.
  - destruct (required_arguments demoHost NoSource "out" noOptions) as [_ H].
    apply H. left. reflexivity.
Defined.

(** X2. The patterns are matched in the order given and the first one
    that goes wrong decides: if the glob engine raises for it the
    operation is rejected with "Cannot glob `pattern`: message", if it is
    not wildcarded and matches nothing with "Cannot copy `pattern`: the
    file doesn't exist", whatever the later patterns would have done; no
    event is emitted. *)
Theorem first_offence h source destination user pre gp post e :
  destination ≠ "" →
  buildPatterns h destination (mergeOptions h user) (normalizePatterns source)
  = pre ++ gp :: post →
  Forall (λ earlier, offence h earlier = None) pre →
  offence h gp = Some e →
  prepare h source destination (mergeOptions h user) = inl e
  ∧ ∀ p ev, cpy h source destination user p ev →
      p = RejectedWith e ∧ ev = [].
Proof.
  intros Hdest Hpatterns Hpre Hoff.
  assert (prepare h source destination (mergeOptions h user) = inl e) as Hprep.
  { rewrite prepare_unfold; [| | done].
    - by rewrite Hpatterns, (collectEntries_offence _ _ _ _ _ _ e).
    - intros Hnil. rewrite Hnil in Hpatterns. by destruct pre. }
  split; [done |]. intros p ev Hrun. by eapply cpy_rejected_early.
Qed.

Lemma first_offence_witness :
  prepare troubledHost (ManySources ["a.txt"; "bad["; "missing.txt"]) "out"
    (mergeOptions troubledHost noOptions)
  = inl (GlobError "bad[" "unmatched bracket")
  ∧ ∀ p ev,
      cpy troubledHost (ManySources ["a.txt"; "bad["; "missing.txt"]) "out"
        noOptions p ev →
      p = RejectedWith (GlobError "bad[" "unmatched bracket") ∧ ev = [].
Proof.
  apply (first_offence troubledHost
           (ManySources ["a.txt"; "bad["; "missing.txt"]) "out" noOptions
           [demoPattern "a.txt"]
           (newGlobPattern troubledHost "bad[" "out"
              (mergeOptions troubledHost noOptions))
           [demoPattern "missing.txt"]).
  - discriminate.
  - reflexivity.
  - repeat constructor.
  - reflexivity.
Defined.

(** X3. The copying phase is reached exactly when there is a source
    pattern, the destination is not empty and no pattern goes wrong;
    otherwise the operation is rejected and has emitted nothing. *)
Theorem reaches_copying h source destination user :
  ((∃ entries, prepare h source destination (mergeOptions h user) = inr entries)
   ↔ arrify source ≠ [] ∧ destination ≠ ""
     ∧ Forall (λ gp, offence h gp = None)
              (buildPatterns h destination (mergeOptions h user)
                             (normalizePatterns source)))
  ∧ (¬ (arrify source ≠ [] ∧ destination ≠ ""
        ∧ Forall (λ gp, offence h gp = None)
                 (buildPatterns h destination (mergeOptions h user)
                                (normalizePatterns source))) →
     ∀ p ev, cpy h source destination user p ev →
       ev = [] ∧ ∃ e, p = RejectedWith e).
Proof.
  assert ((∃ entries,
             prepare h source destination (mergeOptions h user) = inr entries)
          ↔ arrify source ≠ [] ∧ destination ≠ ""
            ∧ Forall (λ gp, offence h gp = None)
                     (buildPatterns h destination (mergeOptions h user)
                                    (normalizePatterns source))) as Hiff.
  { split.
    - intros [entries Hprep].
      assert (arrify source ≠ []) as Hsrc.
      { intros Hnil. unfold prepare in Hprep.
        apply normalizePatterns_nil in Hnil. by rewrite Hnil in Hprep. }
      assert (destination ≠ "") as Hdest.
      { intros ->. unfold prepare in Hprep. by rewrite orb_true_r in Hprep. }
      split; [done |]. split; [done |].
      rewrite prepare_unfold in Hprep; [| by rewrite normalizePatterns_nil | done].
      destruct (collectEntries _ _ _ _) as [e | found] eqn:E; [done |].
      by eapply collectEntries_ok_clean.
    - intros (Hsrc & Hdest & Hall). eexists.
      rewrite prepare_unfold; [| by rewrite normalizePatterns_nil | done].
      by rewrite collectEntries_clean. }
  split; [done |]. intros Hnot p ev Hrun.
  destruct (prepare h source destination (mergeOptions h user))
    as [e | entries] eqn:Hprep.
  - destruct (cpy_rejected_early _ _ _ _ _ _ _ Hprep Hrun) as [-> ->].
    split; [done | by exists e].
  - destruct Hnot. apply Hiff. by exists entries.
Qed.

Lemma reaches_copying_witness :
  (∃ entries,
     prepare demoHost (ManySources ["dir/**/*.txt"; "a.txt"]) "out"
       (mergeOptions demoHost noOptions) = inr entries)
  ∧ ∀ p ev,
      cpy demoHost (ManySources ["a.txt"; "missing.txt"]) "out" noOptions p ev →
      ev = [] ∧ ∃ e, p = RejectedWith e.
Proof.
  split.
  - destruct (reaches_copying demoHost (ManySources ["dir/**/*.txt"; "a.txt"])
                "out" noOptions) as [[_ H] _].
    apply H. split; [discriminate |]. split; [discriminate |].
    repeat constructor.
  - destruct (reaches_copying demoHost (ManySources ["a.txt"; "missing.txt"])
                "out" noOptions) as [_ H].
    apply H. intros (_ & _ & Hall).
    apply Forall_cons in Hall as [_ Hall]. apply Forall_cons in Hall as [Hbad _].
    discriminate Hbad.
Defined.

(** X4. Backslashes in the source patterns are turned into slashes before
    anything else happens: the patterns the operation works with contain
    no backslash, and an operation behaves as the one whose patterns are
    written with slashes. *)
Theorem backslash_patterns h source destination user :
  Forall (λ s, backslashes_to_slashes s = s) (normalizePatterns source)
  ∧ ∀ p ev,
      cpy h source destination user p ev
      ↔ cpy h (ManySources (normalizePatterns source)) destination user p ev.
Proof.
  split.
  - unfold normalizePatterns. apply Forall_fmap, Forall_true.
    intros s. apply backslashes_idempotent.
  - intros p ev. split; apply cpy_patterns;
      by rewrite normalizePatterns_idempotent.
Qed.

Lemma backslash_patterns_witness :
  Forall (λ s, backslashes_to_slashes s = s) ["sub/b.txt"]
  ∧ ∀ p ev,
      cpy demoHost (OneSource "sub\b.txt") "out" noOptions p ev
      ↔ cpy demoHost (ManySources ["sub/b.txt"]) "out" noOptions p ev.
Proof.
  exact (backslash_patterns demoHost (OneSource "sub\b.txt") "out" noOptions).
Defined.

(** X5. The [reduce] over the patterns builds one pattern object per
    source pattern, in order, each from the pattern text, the destination
    and the options; the accumulator's earlier objects play no part. *)
Theorem patterns_one_per_source h destination options (patterns : list string) :
  buildPatterns h destination options patterns
  = (λ text, newGlobPattern h text destination options) <$> patterns.
Proof. apply buildPatterns_map. Qed.

(** X6. Every entry of the copying phase stems from a match: its path is
    one of the matches of one of the pattern objects, which it carries
    along; its relative path is its path relative to the [cwd] option; and
    it has passed the [filter] option if there is one. *)
Theorem entries_of_matches h source destination user entries :
  prepare h source destination (mergeOptions h user) = inr entries →
  ∀ e, e ∈ entries →
    (∃ matches,
       pattern e ∈ buildPatterns h destination (mergeOptions h user)
                     (normalizePatterns source)
       ∧ getMatches (pattern e) = inr matches
       ∧ path e ∈ matches)
    ∧ relativePath e
      = relative (process_cwd h) (cwd (mergeOptions h user)) (path e)
    ∧ (∀ keep, user_filter user = Some keep → keep e = true).
Proof.
  intros Hprep e He. unfold prepare in Hprep.
  destruct (_ || _); [done |].
  destruct (collectEntries _ _ _ _) as [err | found] eqn:E; [done |].
  apply collectEntries_ok in E.
  fold (retained (mergeOptions h user) found) in Hprep.
  injection Hprep as <-. subst found. rewrite app_nil_l in He.
  apply retained_subset in He as [He Hkeep].
  unfold entriesInOrder in He.
  apply list_elem_of_bind in He as (gp & He & Hgp).
  apply entriesOfPattern_spec in He as (matches & Hm & Hin & <- & Hrel).
  split; [by exists matches |]. split; [done |].
  exact Hkeep.
Qed.

Lemma entries_of_matches_witness :
  (∃ matches,
     pattern (demoEntry "dir/**/*.txt" "/w/dir/y/z.txt")
       ∈ [demoPattern "dir/**/*.txt"; demoPattern "a.txt"]
     ∧ getMatches (pattern (demoEntry "dir/**/*.txt" "/w/dir/y/z.txt"))
       = inr matches
     ∧ "/w/dir/y/z.txt" ∈ matches)
  ∧ relativePath (demoEntry "dir/**/*.txt" "/w/dir/y/z.txt")
    = relative "/w" "/w" "/w/dir/y/z.txt".
Proof.
  destruct (entries_of_matches demoHost (ManySources ["dir/**/*.txt"; "a.txt"])
              "out" noOptions demoMatched eq_refl
              (demoEntry "dir/**/*.txt" "/w/dir/y/z.txt")) as (H1 & H2 & _).
  - apply (list_elem_of_lookup_2 _ 1). reflexivity.
  - split; [exact H1 | exact H2].
Defined.

(** ** Entries, destinations and rename *)

(** X7. The getters of an entry take its file name apart: the name is the
    name without extension followed by the extension with its dot, the
    name holds no separator, [extension] holds no dot and is what follows
    the dot. *)
Theorem entry_name_parts (e : Entry) :
  name e = nameWithoutExtension e +:+ extname (path e)
  ∧ has_sep (name e) = false
  ∧ from_last_dot (extension e) = None
  ∧ (extname (path e) = "" ∧ extension e = ""
     ∨ extname (path e) = "." +:+ extension e).
Proof.
  unfold name, nameWithoutExtension, extension.
  split; [symmetry; apply stem_extension |].
  split; [apply last_component_no_sep |].
  destruct (extname_cases (path e)) as [-> | (rest & -> & Hrest)].
  - split; [done | by left].
  - split; [done | by right].
Qed.

(** X8. Every destination the resolver computes is a non-empty path in
    normal form.  It is absolute when the destination argument is; for a
    relative destination it is anchored at the [cwd] option, and absolute
    when that is, except for a wildcarded pattern with [flat] off, where
    [cwd] plays no part and the result stays relative. *)
Theorem destination_shape h entry destination options :
  normalize (preprocessDestinationPath h entry destination options)
  = preprocessDestinationPath h entry destination options
  ∧ preprocessDestinationPath h entry destination options ≠ ""
  ∧ isAbsolute (preprocessDestinationPath h entry destination options)
    = isAbsolute destination
      || negb (hasMagic (pattern entry) && negb (flat options))
         && isAbsolute (cwd options).
Proof.
  split; [apply preprocess_normalized |]. split.
  { unfold preprocessDestinationPath.
    repeat match goal with |- context [if ?b then _ else _] => destruct b end;
      apply join_nonempty. }
  assert (∀ c r : string,
            isAbsolute destination = false → isAbsolute r = false →
            isAbsolute (join [c; destination; r]) = isAbsolute c) as Hthree.
  { intros c r Hd Hr. destruct (decide (c = "")) as [-> | Hc].
    - rewrite join_empty_cons. destruct (decide (destination = "")) as [-> | Hne].
      + rewrite join_empty_cons. destruct (decide (r = "")) as [-> | Hrne]; [done |].
        by rewrite isAbsolute_join.
      + by rewrite isAbsolute_join.
    - by rewrite isAbsolute_join. }
  assert (∀ r : string,
            isAbsolute r = false →
            isAbsolute (join [destination; r]) = isAbsolute destination) as Htwo.
  { intros r Hr. destruct (decide (destination = "")) as [-> | Hne].
    - rewrite join_empty_cons. destruct (decide (r = "")) as [-> | Hrne]; [done |].
      by rewrite isAbsolute_join.
    - by rewrite isAbsolute_join. }
  unfold preprocessDestinationPath.
  destruct (hasMagic (pattern entry)), (flat options),
    (isAbsolute destination) eqn:Habs; simpl;
    rewrite ?Htwo, ?Hthree, ?Habs;
    try done; try apply basename_not_absolute; try apply relative_not_absolute.
Qed.

(** X9. For an entry of a literal pattern and a relative destination, a
    source that lies in the [cwd] option's directory or below it keeps its
    place: the path of the output relative to [join(cwd, destination)] is
    the path of the source relative to [cwd]. *)
Theorem literal_keeps_structure h entry destination options :
  hasMagic (pattern entry) = false →
  isAbsolute destination = false →
  isAbsolute (process_cwd h) = true →
  lies_under (process_cwd h) (cwd options) (path entry) →
  relative (process_cwd h) (join [cwd options; destination])
    (preprocessDestinationPath h entry destination options)
  = relative (process_cwd h) (cwd options) (path entry).
Proof.
  intros Hlit Hrel Hcwd [sfx Hsfx]. unfold preprocessDestinationPath.
  rewrite Hlit, Hrel. rewrite (relative_under _ _ _ sfx Hsfx).
  pose proof (resolve_segments_filenames (process_cwd h) (path entry) Hcwd) as Hf.
  rewrite Hsfx in Hf. apply Forall_app in Hf as [_ Hf].
  rewrite join_join by (by apply unsplit_not_absolute, filenames_solid).
  by apply relative_under, resolve_segments_join.
Qed.

Lemma literal_keeps_structure_witness :
  relative "/w" (join ["/w"; "out"])
    (preprocessDestinationPath demoHost (demoEntry "sub/b.txt" "/w/sub/b.txt")
       "out" (mergeOptions demoHost noOptions))
  = relative "/w" "/w" "/w/sub/b.txt".
Proof.
  apply (literal_keeps_structure demoHost
           (demoEntry "sub/b.txt" "/w/sub/b.txt") "out"
           (mergeOptions demoHost noOptions)).
  - reflexivity.
  - reflexivity.
  - reflexivity.
  - exists ["sub"; "b.txt"]. reflexivity.
Defined.

(** X10. For an entry of a literal pattern and an absolute destination the
    directories of the source are dropped: the output has the file name of
    the source and lies directly in the destination. *)
Theorem literal_absolute_destination h entry destination options :
  hasMagic (pattern entry) = false →
  isAbsolute destination = true →
  is_filename (name entry) = true →
  basename (preprocessDestinationPath h entry destination options) = name entry
  ∧ resolve (process_cwd h)
      (dirname (preprocessDestinationPath h entry destination options))
    = resolve (process_cwd h) destination
  ∧ (normalize destination = destination →
     ends_with_sep destination = false →
     dirname (preprocessDestinationPath h entry destination options)
     = destination).
Proof.
  intros Hlit Habs Hname. unfold preprocessDestinationPath.
  rewrite Hlit, Habs.
  assert (destination ≠ "") as Hne by (by intros ->).
  split; [by apply basename_join_filename |].
  rewrite dirname_join_filename by done.
  split; [by apply resolve_render |].
  intros Hnorm Hends. transitivity (normalize destination); [| done].
  rewrite normalize_render by done. by rewrite Hends.
Qed.

Lemma literal_absolute_destination_witness :
  basename (preprocessDestinationPath demoHost
              (demoEntry "sub/b.txt" "/w/sub/b.txt") "/backup"
              (mergeOptions demoHost noOptions))
  = "b.txt"
  ∧ resolve "/w"
      (dirname (preprocessDestinationPath demoHost
                  (demoEntry "sub/b.txt" "/w/sub/b.txt") "/backup"
                  (mergeOptions demoHost noOptions)))
    = resolve "/w" "/backup"
  ∧ dirname (preprocessDestinationPath demoHost
               (demoEntry "sub/b.txt" "/w/sub/b.txt") "/backup"
               (mergeOptions demoHost noOptions))
    = "/backup".
Proof.
  destruct (literal_absolute_destination demoHost
              (demoEntry "sub/b.txt" "/w/sub/b.txt") "/backup"
              (mergeOptions demoHost noOptions) eq_refl eq_refl eq_refl)
    as (H1 & H2 & H3).
  split; [exact H1 |]. split; [exact H2 |]. apply H3; reflexivity.
Defined.

(** X11. Renaming a file to the name it has changes nothing: for a path in
    normal form that ends in a file name, the static rename to that name
    and a rename function that returns its argument both give the path
    back. *)
Theorem rename_identity (p : string) :
  normalize p = p →
  ends_with_sep p = false →
  is_filename (basename p) = true →
  renameFile p (StaticName (basename p)) = p
  ∧ ∀ f, f (basename_without p (extname p)) = basename_without p (extname p) →
         renameFile p (Computed f) = p.
Proof.
  intros Hnorm Hends Hname. unfold renameFile. split.
  - by apply join_dirname_basename.
  - intros f ->. rewrite stem_extension. by apply join_dirname_basename.
Qed.

Lemma rename_identity_witness :
  renameFile "/w/out/y/z.txt" (StaticName "z.txt") = "/w/out/y/z.txt"
  ∧ renameFile "/w/out/y/z.txt" (Computed (λ stem, stem)) = "/w/out/y/z.txt".
Proof.
  destruct (rename_identity "/w/out/y/z.txt" eq_refl eq_refl eq_refl)
    as [H1 H2].
  split; [exact H1 | apply H2; reflexivity].
Defined.

(** X12. When the new file name is a single file name, the renamed path
    ends in it; its extension is that of the new name, which for a rename
    function that returns a non-empty text is the old extension whenever
    there is one. *)
Theorem rename_sets_name (p : string) (rename : Rename) (n : string) :
  newName p rename = Some n →
  is_filename n = true →
  basename (renameFile p rename) = n
  ∧ extname (renameFile p rename) = extname n
  ∧ (∀ f, rename = Computed f →
          f (basename_without p (extname p)) ≠ "" →
          extname p ≠ "" →
          extname (renameFile p rename) = extname p).
Proof.
  intros Hnew Hn.
  assert (basename (renameFile p rename) = n) as Hbase.
  { unfold renameFile. destruct rename as [| s | f]; simpl in Hnew; [done | |];
      injection Hnew as <-; apply basename_join_filename; auto with paths. }
  assert (extname (renameFile p rename) = extname n) as Hext.
  { rewrite extname_of_component. unfold basename in Hbase. by rewrite Hbase. }
  split; [done |]. split; [done |].
  intros f -> Hstem Hp. rewrite Hext. simpl in Hnew. injection Hnew as <-.
  apply extname_app; [done | | done].
  destruct (extname_shape p) as [? | ?]; done.
Qed.

Lemma rename_sets_name_witness :
  basename (renameFile "out/y/z.txt" (Computed (λ stem, stem +:+ "-copy")))
  = "z-copy.txt"
  ∧ extname (renameFile "out/y/z.txt" (Computed (λ stem, stem +:+ "-copy")))
    = extname "z-copy.txt"
  ∧ extname (renameFile "out/y/z.txt" (Computed (λ stem, stem +:+ "-copy")))
    = extname "out/y/z.txt".
Proof.
  destruct (rename_sets_name "out/y/z.txt"
              (Computed (λ stem, stem +:+ "-copy")) "z-copy.txt"
              eq_refl eq_refl) as (H1 & H2 & H3).
  split; [exact H1 |]. split; [exact H2 |].
  apply (H3 (λ stem, stem +:+ "-copy")); [reflexivity | discriminate..].
Defined.

(** ** Progress *)

(** X20. Let the entries have distinct source paths and let the ticks,
    interleaved in any order and with any repetitions, be such that byte
    counts are not negative and add up to at most
    [Number.MAX_SAFE_INTEGER], the byte count of a file never goes down, a
    file once reported finished stays finished, every tick is for one of
    the entries and every entry is eventually reported finished.  Then the
    [completedFiles] values emitted and the [completedSize] values emitted
    are non-decreasing, and the last event emitted has [completedFiles]
    equal to [totalFiles] and [percent] equal to 1. *)
Theorem progress_monotone (entries : list Entry) (ticks : list ProgressData.t) :
  NoDup (path <$> entries) →
  wellBehaved ticks →
  finishes (path <$> entries) ticks →
  (totalWritten ticks ≤ maxSafeInteger)%Z →
  Sorted le (Progress.completedFiles <$> emittedFor entries ticks)
  ∧ Sorted Z.le (Progress.completedSize <$> emittedFor entries ticks)
  ∧ ∃ final,
      last (emittedFor entries ticks) = Some final
      ∧ Progress.completedFiles final = Progress.totalFiles final
      ∧ is_one (Progress.percent final) = true.
Proof.
  intros Hnd Hwb Hfin Hsafe. unfold emittedFor.
  destruct entries as [|entry entries].
  - assert (ticks = []) as ->.
    { destruct ticks as [|t ticks]; [done |].
      destruct Hfin as [Hin _]. apply Forall_cons in Hin as [Hin _].
      by apply elem_of_nil in Hin. }
    simpl. repeat split; [by repeat constructor.. |].
    by exists nothingToCopy.
  - change (length (entry :: entries) =? 0) with false.
    rewrite app_nil_l.
    set (total := length (entry :: entries)).
    split; [apply completedFiles_sorted |].
    split; [by apply completedSize_sorted |].
    pose proof (all_files_completed total ticks _ Hwb Hnd Hfin) as Hall.
    rewrite length_fmap in Hall. fold total in Hall.
    pose proof (last_event total ticks) as Hlast.
    fold (outAfter total ticks).
    destruct (last (outAfter total ticks)) as [e|].
    + exists e. destruct Hlast as (Hcf & _ & Htot & Hpc).
      split; [done |]. split; [congruence |].
      rewrite Hpc, Hall. by apply divide_same.
    + destruct Hlast as [Hz _]. rewrite Hall in Hz. done.
Qed.

Lemma progress_monotone_witness :
  Sorted le (Progress.completedFiles <$> emittedFor demoLiterals demoTicks)
  ∧ Sorted Z.le (Progress.completedSize <$> emittedFor demoLiterals demoTicks)
  ∧ ∃ final,
      last (emittedFor demoLiterals demoTicks) = Some final
      ∧ Progress.completedFiles final = Progress.totalFiles final
      ∧ is_one (Progress.percent final) = true.
Proof.
  apply (progress_monotone demoLiterals demoTicks).
  - apply (bool_decide_unpack _). vm_compute. exact I.
  - apply (bool_decide_unpack _). vm_compute. exact I.
  - apply (bool_decide_unpack _). vm_compute. exact I.
  - apply (bool_decide_unpack _). vm_compute. exact I.
Defined.

(** The bound on the byte counts is needed: from [2^53] bytes on the
    additions round, and when a file is reported finished at the size it
    already had, taking its bytes out and putting them back in loses what
    an earlier addition had rounded up. *)
Lemma safe_range_needed :
  NoDup (path <$> hugeEntries)
  ∧ wellBehaved hugeTicks
  ∧ finishes (path <$> hugeEntries) hugeTicks
  ∧ Progress.completedSize <$> emittedFor hugeEntries hugeTicks
    = [1; 2 ^ 53; 2 ^ 53 + 2; 2 ^ 53]%Z.
Proof.
  split; [apply (bool_decide_unpack _); vm_compute; exact I |].
  split; [apply (bool_decide_unpack _); vm_compute; exact I |].
  split; [apply (bool_decide_unpack _); vm_compute; exact I |].
  vm_compute. reflexivity.
Qed.

(** X13. As long as the byte counts of the ticks are not negative and
    add up to at most [Number.MAX_SAFE_INTEGER], [completedSize] is the
    sum of the byte counts the status map records, and the last event
    emitted carries that sum. *)
Theorem bytes_accounted total (ticks : list ProgressData.t) :
  withinSafeRange ticks →
  completedSize (aggAfter total ticks) = recordedBytes (aggAfter total ticks)
  ∧ ∀ e, last (outAfter total ticks) = Some e →
      Progress.completedSize e = recordedBytes (aggAfter total ticks).
Proof.
  intros Hsafe. destruct (exact_accounts total ticks Hsafe) as (H & _ & _).
  split; [done |]. intros e He.
  pose proof (last_event total ticks) as Hlast. rewrite He in Hlast.
  destruct Hlast as (_ & -> & _). done.
Qed.

Lemma bytes_accounted_witness :
  completedSize (aggAfter 2 demoTicks) = recordedBytes (aggAfter 2 demoTicks)
  ∧ Progress.completedSize (Progress.mk 2 (Finite (2 # 2)) 2 17)
    = recordedBytes (aggAfter 2 demoTicks).
Proof.
  destruct (bytes_accounted 2 demoTicks) as [H1 H2].
  - apply (bool_decide_unpack _). vm_compute. exact I.
  - split; [exact H1 |]. apply H2. vm_compute. reflexivity.
Defined.

(** Beyond that range the sum can get lost: once [2^53] bytes of one file
    are counted, a byte of another file is rounded away, and when the
    first file is reported anew [completedSize] is 0 while the map records
    1 byte. *)
Lemma bytes_lost_beyond_safe_range :
  completedSize
    (aggAfter 2 [tick "/w/a.txt" (2 ^ 53) 0; tick "/w/sub/b.txt" 1 0;
                 tick "/w/a.txt" 0 0]) = 0%Z
  ∧ recordedBytes
      (aggAfter 2 [tick "/w/a.txt" (2 ^ 53) 0; tick "/w/sub/b.txt" 1 0;
                   tick "/w/a.txt" 0 0]) = 1%Z.
Proof. split; vm_compute; reflexivity. Qed.

(** X14. After the handler has seen a tick, the status recorded for the
    tick's path carries the numbers of the tick, the statuses of all other
    paths are as before, and no path has left the map; the path of the
    tick is missing from the map only if the tick was the first for its
    path and reported nothing written and nothing done. *)
Theorem status_recorded total a (t : ProgressData.t) :
  CopyStatus.written
    (statusOf (fileProgressHandler total a t).1 (ProgressData.src t))
  = ProgressData.written t
  ∧ Qeq (CopyStatus.percent
           (statusOf (fileProgressHandler total a t).1 (ProgressData.src t)))
        (ProgressData.percent t)
  ∧ (∀ s, s ≠ ProgressData.src t →
       copyStatus (fileProgressHandler total a t).1 !! s = copyStatus a !! s)
  ∧ dom (copyStatus a) ⊆ dom (copyStatus (fileProgressHandler total a t).1)
  ∧ (copyStatus (fileProgressHandler total a t).1 !! ProgressData.src t = None →
     copyStatus a !! ProgressData.src t = None
     ∧ ProgressData.written t = 0%Z ∧ Qeq (ProgressData.percent t) 0).
Proof.
  destruct (statusOf_after_same total a t) as [Hw Hp].
  split; [done |]. split; [by apply Qeq_bool_iff |].
  unfold fileProgressHandler in *.
  destruct (changed (statusOf a (ProgressData.src t)) t) eqn:E; simpl in *.
  - split; [intros s Hs; by rewrite lookup_insert_ne |].
    split; [rewrite dom_insert_L; set_solver |].
    by rewrite lookup_insert_eq.
  - split; [done |]. split; [done |]. intros Hnone.
    unfold statusOf in Hw, Hp. rewrite Hnone in Hw, Hp. simpl in Hw, Hp.
    split; [done |]. split; [done |]. symmetry. by apply Qeq_bool_iff.
Qed.

Lemma status_recorded_witness :
  copyStatus halfway !! "/w/sub/b.txt" = None
  ∧ ProgressData.written (tick "/w/sub/b.txt" 0 0) = 0%Z
  ∧ Qeq (ProgressData.percent (tick "/w/sub/b.txt" 0 0)) 0.
Proof.
  destruct (status_recorded 2 halfway (tick "/w/sub/b.txt" 0 0))
    as (_ & _ & _ & _ & H).
  apply H. vm_compute. reflexivity.
Defined.

(** X15. When the entries have distinct source paths and the ticks are
    well behaved and are for the entries, every event has [completedFiles]
    at most [totalFiles] and [percent] at most 1. *)
Theorem progress_bounded (entries : list Entry) (ticks : list ProgressData.t) :
  NoDup (path <$> entries) →
  wellBehaved ticks →
  Forall (λ t, ProgressData.src t ∈ path <$> entries) ticks →
  Forall (λ e, Progress.completedFiles e ≤ Progress.totalFiles e
               ∧ atMostOne (Progress.percent e) = true)
         (emittedFor entries ticks).
Proof.
  intros Hnd Hwb Hin. unfold emittedFor. apply Forall_app. split.
  - destruct (length entries =? 0); by repeat constructor.
  - apply (completedFiles_bounded _ (path <$> entries)); try done.
    by rewrite length_fmap.
Qed.

Lemma progress_bounded_witness :
  Forall (λ e, Progress.completedFiles e ≤ Progress.totalFiles e
               ∧ atMostOne (Progress.percent e) = true)
         (emittedFor demoLiterals demoTicks).
Proof.
  apply (progress_bounded demoLiterals demoTicks).
  - apply (bool_decide_unpack _). vm_compute. exact I.
  - apply (bool_decide_unpack _). vm_compute. exact I.
  - apply (bool_decide_unpack _). vm_compute. exact I.
Defined.

(** X16. Whatever an operation does and however its copies behave, the
    [completedFiles] values of its events never go down, and once the
    copying phase is reached every event carries the number of entries as
    [totalFiles]. *)
Theorem events_of_operation h source destination user p ev :
  cpy h source destination user p ev →
  Sorted le (Progress.completedFiles <$> ev)
  ∧ ∀ entries,
      prepare h source destination (mergeOptions h user) = inr entries →
      Forall (λ e, Progress.totalFiles e = length entries) ev.
Proof.
  intros Hrun. inversion Hrun as [e He | entries s He Hsteps]; subst.
  { split; [constructor |]. intros entries Hprep. by rewrite Hprep in He. }
  pose proof Hsteps as (delivered & _ & Hev)%events_of_run. simpl in Hev.
  assert (∀ entries', prepare h source destination (mergeOptions h user)
                      = inr entries' → entries' = entries) as Hsame.
  { intros entries' Hprep. rewrite Hprep in He. by injection He. }
  split.
  - rewrite Hev. unfold emittedFor. rewrite fmap_app.
    pose proof (completedFiles_sorted (length entries) delivered) as Hs.
    fold (outAfter (length entries) delivered).
    destruct (length entries =? 0); [by apply Sorted_zero_cons | done].
  - intros entries' ->%Hsame.
    rewrite Hev. unfold emittedFor. apply Forall_app. split.
    + destruct entries; simpl; by repeat constructor.
    + apply totalFiles_constant.
Qed.

Lemma events_of_operation_witness :
  Sorted le (Progress.completedFiles <$> emitted copiedOne)
  ∧ Forall (λ e, Progress.totalFiles e = 1) (emitted copiedOne).
Proof.
  destruct (events_of_operation demoHost (OneSource "a.txt") "out" noOptions
              (promise copiedOne) (emitted copiedOne) copy_of_one) as [H1 H2].
  split; [exact H1 |].
  exact (H2 [demoEntry "a.txt" "/w/a.txt"] eq_refl).
Defined.

(** ** Copying *)

(** X17. Once the copying phase is reached (with room for at least one
    copy in flight) the operation is rejected only for a copy that failed,
    with "Cannot copy from `relativePath` to `destination`: message" for
    one of the entries whose copy fails; when every copy succeeds it is
    never rejected; and the first entry whose copy fails can be the one
    that rejects it. *)
Theorem copy_failure h source destination user entries :
  1 ≤ default (defaultConcurrency h) (user_concurrency user) →
  prepare h source destination (mergeOptions h user) = inr entries →
  (∀ e ev,
     cpy h source destination user (RejectedWith e) ev →
     failedCopy h destination (mergeOptions h user) entries e)
  ∧ ((∀ entry, entry ∈ entries →
        failure (cpFile h (path entry)
                   (destinationOf h destination (mergeOptions h user) entry)
                   (mergeOptions h user)) = None) →
     ∀ e ev, ¬ cpy h source destination user (RejectedWith e) ev)
  ∧ (∀ k entry msg,
       (∀ i earlier, i < k → entries !! i = Some earlier →
          failure (cpFile h (path earlier)
                     (destinationOf h destination (mergeOptions h user) earlier)
                     (mergeOptions h user)) = None) →
       entries !! k = Some entry →
       failure (cpFile h (path entry)
                  (destinationOf h destination (mergeOptions h user) entry)
                  (mergeOptions h user)) = Some msg →
       ∃ ev,
         cpy h source destination user
           (RejectedWith
              (CopyError (relativePath entry)
                 (destinationOf h destination (mergeOptions h user) entry) msg))
           ev).
Proof.
  intros Hconc Hprep.
  assert (∀ e ev,
            cpy h source destination user (RejectedWith e) ev →
            failedCopy h destination (mergeOptions h user) entries e) as Hcause.
  { intros e ev Hrun.
    inversion Hrun as [e' He' | entries' s He' Hsteps Hp]; subst.
    - by rewrite Hprep in He'.
    - rewrite Hprep in He'. injection He' as <-.
      by apply (rejected_by_copy _ _ _ _ Hsteps). }
  split; [done |]. split.
  - intros Hok e ev Hrun.
    destruct (Hcause e ev Hrun) as (entry & msg & Hin & Hfail & _).
    rewrite (Hok entry Hin) in Hfail. done.
  - intros k entry msg Hok Hentry Hfail.
    destruct (first_failure_run h (jobOf h destination user entries)
                k entry msg Hconc Hok Hentry Hfail) as (s & Hrun & Hp).
    exists (emitted s).
    pose proof (cpy_copies h source destination user entries s Hprep Hrun) as Hc.
    rewrite Hp in Hc. exact Hc.
Qed.

Lemma copy_failure_witness :
  ∃ ev,
    cpy troubledHost (ManySources ["a.txt"; "sub/b.txt"]) "out" noOptions
      (RejectedWith (CopyError "sub/b.txt" "/w/out/sub/b.txt" "EACCES")) ev.
Proof.
  assert (1 ≤ default (defaultConcurrency troubledHost)
                      (user_concurrency noOptions)) as Hconc
    by (vm_compute; lia).
  destruct (copy_failure troubledHost (ManySources ["a.txt"; "sub/b.txt"])
              "out" noOptions demoLiterals Hconc eq_refl) as (_ & _ & H).
  apply (H 1 (demoEntry "sub/b.txt" "/w/sub/b.txt") "EACCES").
  - intros i earlier Hi Hearlier.
    destruct i as [|i]; [| lia]. injection Hearlier as <-. reflexivity.
  - reflexivity.
  - reflexivity.
Defined.

(** X18. Without a [concurrency] option the number of copies that may be
    in flight is twice the number of processors, and two when the machine
    reports none; it is never zero, so that an operation whose copies all
    succeed can be fulfilled with the destinations of its entries. *)
Theorem default_concurrency h source destination user entries :
  user_concurrency user = None →
  prepare h source destination (mergeOptions h user) = inr entries →
  (∀ entry, entry ∈ entries →
     failure (cpFile h (path entry)
                (destinationOf h destination (mergeOptions h user) entry)
                (mergeOptions h user)) = None) →
  job_concurrency (jobOf h destination user entries) = 2 * Nat.max 1 (os_cpus h)
  ∧ ∃ events,
      cpy h source destination user
        (Fulfilled (Some <$> (destinationOf h destination (mergeOptions h user)
                                <$> entries)))
        events.
Proof.
  intros Hnone Hprep Hok.
  assert (defaultConcurrency h = 2 * Nat.max 1 (os_cpus h)) as Hdefault.
  { unfold defaultConcurrency. destruct (os_cpus h); simpl; lia. }
  split.
  - simpl. by rewrite Hnone.
  - apply cpy_can_fulfil; [done | | done].
    rewrite Hnone. simpl. lia.
Qed.

Lemma default_concurrency_witness :
  job_concurrency (jobOf troubledHost "out" noOptions
                     [demoEntry "a.txt" "/w/a.txt"]) = 2
  ∧ ∃ events,
      cpy troubledHost (OneSource "a.txt") "out" noOptions
        (Fulfilled [Some "/w/out/a.txt"]) events.
Proof.
  apply (default_concurrency troubledHost (OneSource "a.txt") "out" noOptions
           [demoEntry "a.txt" "/w/a.txt"]).
  - reflexivity.
  - reflexivity.
  - intros entry Hentry. apply list_elem_of_singleton in Hentry. subst entry.
    reflexivity.
Defined.

(** X19. The value of a fulfilled promise has one element per entry and no
    hole, and each element is a non-empty path in normal form. *)
Theorem fulfilled_value_shape h source destination user entries value events :
  prepare h source destination (mergeOptions h user) = inr entries →
  cpy h source destination user (Fulfilled value) events →
  length value = length entries
  ∧ Forall (λ slot, ∃ to, slot = Some to ∧ normalize to = to ∧ to ≠ "") value.
Proof.
  intros Hprep Hrun.
  rewrite (cpy_fulfilled _ _ _ _ _ _ _ Hprep Hrun).
  split; [by rewrite !length_fmap |].
  apply Forall_fmap, Forall_fmap, Forall_true. intros entry. simpl.
  eexists. split; [done |]. apply destinationOf_normalized.
Qed.

Lemma fulfilled_value_shape_witness :
  length [Some "/w/out/a.txt"] = length [demoEntry "a.txt" "/w/a.txt"]
  ∧ Forall (λ slot, ∃ to, slot = Some to ∧ normalize to = to ∧ to ≠ "")
           [Some "/w/out/a.txt"].
Proof.
  apply (fulfilled_value_shape demoHost (OneSource "a.txt") "out" noOptions
           [demoEntry "a.txt" "/w/a.txt"] [Some "/w/out/a.txt"]
           (emitted copiedOne) eq_refl copy_of_one).
Defined.
